(** * Squaredle solver: the word search of [script.js]

    A shallow embedding of the dictionary construction ([init]) and of the
    depth-first word search ([findWords] with its inner [dfs]) of
    [src/script.js], followed by the properties of the search engine.

    Conventions of the embedding.
    - A JavaScript string is a [string]: a sequence of code units below 256,
      read as Latin-1.  On such strings [toLowerCase] and [trim] act one
      character at a time, as defined below.
    - Array indices and coordinates are integers ([Z]); an array is a [list]
      read with [!!].  Reading a property of [undefined] raises a
      [TypeError], so an indexing whose result is used is modelled as
      fallible.
    - A [Set] of strings is a [gset string]; the visited set, keyed in the
      source by the string [`${x},${y}`], is a [gset] of coordinate pairs
      (the key is an injective encoding of the pair).
    - The [Map] of found words keeps insertion order: it is an association
      list with the update-in-place semantics of [Map.prototype.set].
    - [dfs] is recursive without a syntactic bound; the embedding carries a
      depth budget (fuel) and reports [OutOfFuel] when it is exhausted.
    - [String.prototype.localeCompare] is host-defined: it is a parameter of
      the development. *)

From stdpp Require Import gmap strings list sorting.
From Stdlib Require Import ZArith Ascii Lia.

#[local] Set Warnings "-clear-no-such-hyp".
Local Open Scope Z_scope.

(** ** Results of fallible computations *)

Inductive result (A : Type) : Type :=
| Ok (a : A)
| TypeError
| OutOfFuel.
Arguments Ok {A} a.
Arguments TypeError {A}.
Arguments OutOfFuel {A}.

#[global] Instance result_ret : MRet result := fun A a => Ok a.
#[global] Instance result_bind : MBind result := fun A B f m =>
  match m with
  | Ok a => f a
  | TypeError => TypeError
  | OutOfFuel => OutOfFuel
  end.

(** [a[i]] followed by a property read: fails when the element is absent,
    which it is at a negative index and at an index beyond the end. *)
Definition index {A} (a : list A) (i : Z) : result A :=
  if i <? 0 then TypeError
  else match a !! Z.to_nat i with
       | Some v => Ok v
       | None => TypeError
       end.

(** [for (const a of l) { ... }] and [l.forEach((a, i) => ...)] over a
    threaded state. *)
Fixpoint for_of {A St} (body : St → A → result St) (l : list A) (s : St) : result St :=
  match l with
  | [] => Ok s
  | a :: l' => s' ← body s a; for_of body l' s'
  end.

Fixpoint forEach_from {A St} (i : nat) (body : St → A → nat → result St)
    (l : list A) (s : St) : result St :=
  match l with
  | [] => Ok s
  | a :: l' => s' ← body s a i; forEach_from (S i) body l' s'
  end.

Definition forEach {A St} (body : St → A → nat → result St) (l : list A)
    (s : St) : result St :=
  forEach_from 0 body l s.

(** ** Strings *)

Definition is_upper (c : ascii) : bool :=
  let n := N_of_ascii c in
  (((65 <=? n) && (n <=? 90)) ||
   ((192 <=? n) && (n <=? 222) && negb (n =? 215)))%N.

Definition lower_char (c : ascii) : ascii :=
  if is_upper c then ascii_of_N (N_of_ascii c + 32) else c.

Fixpoint toLowerCase (s : string) : string :=
  match s with
  | EmptyString => EmptyString
  | String c s' => String (lower_char c) (toLowerCase s')
  end.

(** White space and line terminators below 256: TAB, LF, VT, FF, CR, SP and
    NBSP. *)
Definition is_space (c : ascii) : bool :=
  let n := N_of_ascii c in
  (((9 <=? n) && (n <=? 13)) || (n =? 32) || (n =? 160))%N.

Fixpoint trimStart (s : string) : string :=
  match s with
  | EmptyString => EmptyString
  | String c s' => if is_space c then trimStart s' else s
  end.

Fixpoint trimEnd (s : string) : string :=
  match s with
  | EmptyString => EmptyString
  | String c s' =>
      match trimEnd s' with
      | EmptyString => if is_space c then EmptyString else String c EmptyString
      | t => String c t
      end
  end.

Definition trim (s : string) : string := trimEnd (trimStart s).

(** Truthiness of a string: it is not empty. *)
Definition truthy (s : string) : bool :=
  match s with
  | EmptyString => false
  | String _ _ => true
  end.

(** [text.split('\n')] *)
Fixpoint split_lines (text : string) : list string :=
  match text with
  | EmptyString => [EmptyString]
  | String c rest =>
      if Ascii.eqb c "010" then EmptyString :: split_lines rest
      else match split_lines rest with
           | l :: ls => String c l :: ls
           | [] => [String c EmptyString]
           end
  end.

(** ** The dictionary (script.js, lines 14-53) *)

Record lexicon : Type := Lexicon {
  dictionary : gset string;        (* complete words *)
  prefixDictionary : gset string   (* all word prefixes *)
}.

(** The loop [for (const char of word) { prefix += char; prefixDictionary.add(prefix) }]. *)
Fixpoint add_prefixes (prefix word : string) (pd : gset string) : gset string :=
  match word with
  | EmptyString => pd
  | String char rest =>
      let prefix := prefix +:+ String char EmptyString in
      add_prefixes prefix rest ({[prefix]} ∪ pd)
  end.

(** The body of [forEach(word => ...)], lines 36-50. *)
Definition add_line (lex : lexicon) (word : string) : lexicon :=
  let word := toLowerCase (trim word) in
  if truthy word then
    Lexicon ({[word]} ∪ dictionary lex)
            (add_prefixes EmptyString word (prefixDictionary lex))
  else lex.

Definition build (lines : list string) : lexicon :=
  fold_left add_line lines (Lexicon ∅ ∅).

Definition init (text : string) : lexicon := build (split_lines text).

(** ** Grids, paths and the map of found words *)

Abbreviation coord := (Z * Z)%type.
Abbreviation path := (list coord).
Abbreviation grid := (list (list string)).
Abbreviation word_map := (list (string * path)).

(** [Map.prototype.set]: an existing key keeps its place and takes the new
    value; a new key is appended. *)
Fixpoint map_set (k : string) (v : path) (m : word_map) : word_map :=
  match m with
  | [] => [(k, v)]
  | (k', v') :: m' =>
      if decide (k' = k) then (k, v) :: m' else (k', v') :: map_set k v m'
  end.

Fixpoint map_get (k : string) (m : word_map) : option path :=
  match m with
  | [] => None
  | (k', v') :: m' => if decide (k' = k) then Some v' else map_get k m'
  end.

Definition directions : list (Z * Z) :=
  [ (-1, -1); (-1, 0); (-1, 1);
    (0, -1);           (0, 1);
    (1, -1);  (1, 0);  (1, 1) ].

(** ** The search (script.js, lines 93-159) *)

(** What one iteration of the direction loop decides before recursing. *)
Inductive move : Type :=
| Skip
| Visit (nx ny : Z) (cell : string).

(** Lines 124-135: the neighbour in direction [(dx, dy)] and the skip test,
    evaluated left to right with the short circuit of [||]. *)
Definition neighbour (g : grid) (visited : gset coord) (x y : Z) (d : Z * Z) :
    result move :=
  let nx := x + d.1 in
  let ny := y + d.2 in
  if (nx <? 0) || (ny <? 0) || (nx >=? Z.of_nat (length g)) then Ok Skip else
  row ← index g nx;
  if ny >=? Z.of_nat (length row) then Ok Skip else
  cell ← index row ny;
  if negb (truthy (trim cell)) || bool_decide ((nx, ny) ∈ visited) then Ok Skip
  else Ok (Visit nx ny cell).

Section Search.

Variable lex : lexicon.
Variable g : grid.

(** [dfs], lines 111-145.  [fuel] bounds the nesting of activations. *)
Fixpoint dfs (fuel : nat) (x y : Z) (p : path) (currentWord : string)
    (visited : gset coord) (words : word_map) : result word_map :=
  match fuel with
  | O => OutOfFuel
  | S fuel' =>
      let normalized := toLowerCase currentWord in
      if negb (bool_decide (normalized ∈ prefixDictionary lex)) then Ok words
      else
        let words :=
          if bool_decide (normalized ∈ dictionary lex)
          then map_set currentWord p words
          else words in
        for_of (fun words d =>
                  m ← neighbour g visited x y d;
                  match m with
                  | Skip => Ok words
                  | Visit nx ny cell =>
                      let newPath := p ++ [(nx, ny)] in
                      let newVisited := visited ∪ {[(nx, ny)]} in
                      dfs fuel' nx ny newPath (currentWord +:+ cell)
                          newVisited words
                  end)
               directions words
  end.

(** Lines 148-154: a search is started from every non-blank cell. *)
Definition search (fuel : nat) : result word_map :=
  forEach (fun words row i =>
             forEach (fun words char j =>
                        if truthy (trim char) then
                          dfs fuel (Z.of_nat i) (Z.of_nat j)
                              [(Z.of_nat i, Z.of_nat j)] char
                              {[(Z.of_nat i, Z.of_nat j)]} words
                        else Ok words)
                     row words)
          g [].

End Search.

(** ** Sorting the entries (script.js, lines 156-158) *)

(** [Array.prototype.sort] with a comparator: a stable sort; [a] is placed
    before [b] when [cmp a b] is negative, and elements comparing equal keep
    their order. *)
Section Sort.
Context {A : Type} (cmp : A → A → Z).

Fixpoint insert_sorted (a : A) (l : list A) : list A :=
  match l with
  | [] => [a]
  | b :: l' => if cmp a b <=? 0 then a :: l else b :: insert_sorted a l'
  end.

Definition sort (l : list A) : list A := foldr insert_sorted [] l.
End Sort.

(** The non-blank cells in row-major order, with their coordinates: the
    cells [search] starts from. *)
Fixpoint row_cells (i j : nat) (row : list string) : list (coord * string) :=
  match row with
  | [] => []
  | char :: row' =>
      (if truthy (trim char) then [((Z.of_nat i, Z.of_nat j), char)] else [])
      ++ row_cells i (S j) row'
  end.

Fixpoint grid_cells (i : nat) (g : grid) : list (coord * string) :=
  match g with
  | [] => []
  | row :: g' => row_cells i 0 row ++ grid_cells (S i) g'
  end.

Definition starts (g : grid) : list (coord * string) := grid_cells 0 g.

(** The number of usable (non-blank) cells of a grid. *)
Definition usable_cells (g : grid) : nat := length (starts g).

Section FindWords.

(** [String.prototype.localeCompare] of the host. *)
Variable localeCompare : string → string → Z.

(** [(a, b) => a[0].length - b[0].length || a[0].localeCompare(b[0])] *)
Definition compareEntries (a b : string * path) : Z :=
  let d := Z.of_nat (String.length a.1) - Z.of_nat (String.length b.1) in
  if d =? 0 then localeCompare a.1 b.1 else d.

Definition findWords_fuel (fuel : nat) (lex : lexicon) (g : grid) :
    result (list (string * path)) :=
  words ← search lex g fuel;
  Ok (sort compareEntries words).

(** [findWords]: the depth budget is the number of usable cells, which
    the search never exhausts. *)
Definition findWords (lex : lexicon) (g : grid) :
    result (list (string * path)) :=
  findWords_fuel (usable_cells g) lex g.

End FindWords.

(** ** The sequence of discoveries *)

(** The pairs [(currentWord, path)] for which line 119 is executed, in the
    order of execution: the same traversal as [dfs], collecting instead of
    storing. *)
Section Trace.

Variable lex : lexicon.
Variable g : grid.

Fixpoint dfs_trace (fuel : nat) (x y : Z) (p : path) (currentWord : string)
    (visited : gset coord) : list (string * path) :=
  match fuel with
  | O => []
  | S fuel' =>
      let normalized := toLowerCase currentWord in
      if negb (bool_decide (normalized ∈ prefixDictionary lex)) then []
      else
        (if bool_decide (normalized ∈ dictionary lex)
         then [(currentWord, p)] else [])
        ++ (directions ≫= fun d =>
              match neighbour g visited x y d with
              | Ok (Visit nx ny cell) =>
                  dfs_trace fuel' nx ny (p ++ [(nx, ny)])
                            (currentWord +:+ cell) (visited ∪ {[(nx, ny)]})
              | _ => []
              end)
  end.

Definition discoveries : list (string * path) :=
  starts g ≫= fun s =>
    dfs_trace (usable_cells g) s.1.1 s.1.2 [s.1] s.2 {[s.1]}.

End Trace.

(** The first and the last path discovered for a word. *)
Definition first_discovery (w : string) (evs : list (string * path)) :
    option path :=
  map_get w evs.

Definition last_discovery (w : string) (evs : list (string * path)) :
    option path :=
  map_get w (reverse evs).

(** ** Paths over a grid *)

Definition cell_at (g : grid) (c : coord) : option string :=
  if (c.1 <? 0) || (c.2 <? 0) then None
  else row ← g !! Z.to_nat c.1; row !! Z.to_nat c.2.

(** A usable cell: in bounds and not blank. *)
Definition usable (g : grid) (c : coord) : Prop :=
  ∃ cell, cell_at g c = Some cell ∧ truthy (trim cell) = true.

(** The concatenation of the letters along a path. *)
Fixpoint letters (g : grid) (p : path) : option string :=
  match p with
  | [] => Some EmptyString
  | c :: p' =>
      cell ← cell_at g c;
      rest ← letters g p';
      Some (cell +:+ rest)
  end.

Definition adjacent (c1 c2 : coord) : Prop :=
  (c2.1 - c1.1, c2.2 - c1.2) ∈ directions.

Fixpoint linked (p : path) : Prop :=
  match p with
  | c1 :: p' =>
      match p' with
      | c2 :: _ => adjacent c1 c2 ∧ linked p'
      | [] => True
      end
  | [] => True
  end.

(** A simple 8-adjacent path through usable cells. *)
Definition simple_path (g : grid) (p : path) : Prop :=
  p ≠ [] ∧ NoDup p ∧ Forall (usable g) p ∧ linked p.

(** ** Notions used in the statements *)

(** Every non-empty prefix of every word is in the prefix set. *)
Definition prefix_closed (lex : lexicon) : Prop :=
  ∀ w k, w ∈ dictionary lex → (1 ≤ k ≤ String.length w)%nat →
         String.substring 0 k w ∈ prefixDictionary lex.

(** Storing a sequence of discoveries, in order. *)
Definition set_all (evs : list (string * path)) (m : word_map) : word_map :=
  fold_left (fun m e => map_set e.1 e.2 m) evs m.

(** The usable cells that are not in the visited set. *)
Definition remaining (g : grid) (visited : gset coord) : nat :=
  length (filter (fun s : coord * string => s.1 ∉ visited) (starts g)).

(** The search started from one cell. *)
Definition start_from (lex : lexicon) (g : grid) (fuel : nat)
    (words : word_map) (s : coord * string) : result word_map :=
  dfs lex g fuel s.1.1 s.1.2 [s.1] s.2 {[s.1]} words.
#[global] Arguments start_from : simpl never.

(** A node of the search: the path ends at the current cell, spells the
    accumulated word, and its cells are the visited ones. *)
Definition node_ok (g : grid) (x y : Z) (p : path) (w : string)
    (visited : gset coord) : Prop :=
  simple_path g p ∧ last p = Some (x, y) ∧ letters g p = Some w ∧
  (∀ c, c ∈ p ↔ c ∈ visited).

(** What holds of every discovery. *)
Definition sound_entry (lex : lexicon) (g : grid) (e : string * path) : Prop :=
  simple_path g e.2 ∧ letters g e.2 = Some e.1 ∧
  toLowerCase e.1 ∈ dictionary lex ∧ toLowerCase e.1 ∈ prefixDictionary lex.

(** The order of the returned sequence: by length, then by [le] on words of
    the same length. *)
Definition entry_le (le : string → string → Prop) (a b : string * path) : Prop :=
  (String.length a.1 < String.length b.1)%nat ∨
  (String.length a.1 = String.length b.1 ∧ le a.1 b.1).

(** Ordinal comparison of strings: by code unit, position by position. *)
Definition ordinal_le (a b : string) : Prop := String.leb a b = true.


(** The first-path-wins reading of the result: every returned word comes
    with the first path discovered for it. *)
Definition first_path_wins (lex : lexicon) (g : grid)
    (r : list (string * path)) : Prop :=
  ∀ w p, (w, p) ∈ r → first_discovery w (discoveries lex g) = Some p.

(** ** A host collation

    An instance of [localeCompare] for the examples: strings are compared
    by their sort keys, the primary weights (the characters without their
    case) followed by a level separator and the case weights (lower case
    first).  On strings of the letters A-Z and a-z this is the order of the
    hosts that follow the Unicode collation algorithm ("a" before "B",
    against the order of the code units).  For every other character the
    primary weight is simply its code unit, which is not the weight a host
    gives to accented letters, digits or punctuation: no statement below
    relies on the order of such characters. *)

Definition primary_weight (c : ascii) : N := (N_of_ascii (lower_char c) + 1)%N.

Definition case_weight (c : ascii) : N := if is_upper c then 1%N else 0%N.

Definition sort_key (s : string) : list N :=
  let cs := String.list_ascii_of_string s in
  (primary_weight <$> cs) ++ [0%N] ++ (case_weight <$> cs).

Definition root_localeCompare (a b : string) : Z :=
  match list_compare N.compare (sort_key a) (sort_key b) with
  | Lt => -1
  | Eq => 0
  | Gt => 1
  end.

(** ** Reading the grid (script.js, lines 84-87) *)

(** The lower-case letters that have a capital below 256: what
    [lower_char] makes of the upper-case letters. *)
Definition is_lower (c : ascii) : bool :=
  let n := N_of_ascii c in
  (((97 <=? n) && (n <=? 122)) ||
   ((224 <=? n) && (n <=? 254) && negb (n =? 247)))%N.

(** [row.split('')]: one string per code unit. *)
Fixpoint split_chars (row : string) : list string :=
  match row with
  | EmptyString => []
  | String c row' => String c EmptyString :: split_chars row'
  end.

(** [parseGrid], line 86, as a function of the constant [text] of line 85,
    the upper-cased value of the input field. *)
Definition parseGrid (text : string) : grid :=
  split_chars <$> split_lines text.

(** The text of a grid: the cells of a row one after the other, the rows
    separated by line feeds. *)
Definition row_text (row : list string) : string :=
  foldr String.append EmptyString row.

Fixpoint join_lines (lines : list string) : string :=
  match lines with
  | [] => EmptyString
  | [l] => l
  | l :: ls => l +:+ String "010" (join_lines ls)
  end.

(** The characters of the embedding. *)
Definition all_ascii : list ascii := ascii_of_nat <$> seq 0 256.

(** ** Grouping the results (script.js, lines 166-171) *)

(** An object with integer keys, as [Object.entries] lists it: by ascending
    key. *)
Fixpoint obj_get {V} (k : nat) (o : list (nat * V)) : option V :=
  match o with
  | [] => None
  | (k', v') :: o' => if decide (k' = k) then Some v' else obj_get k o'
  end.

Fixpoint obj_set {V} (k : nat) (v : V) (o : list (nat * V)) : list (nat * V) :=
  match o with
  | [] => [(k, v)]
  | (k', v') :: o' =>
      if decide (k' < k)%nat then (k', v') :: obj_set k v o'
      else if decide (k' = k) then (k, v) :: o'
      else (k, v) :: (k', v') :: o'
  end.

(** The body of the [reduce]: [acc[length] = acc[length] || []] followed by
    the [push]. *)
Definition group_step (acc : list (nat * list (string * path)))
    (e : string * path) : list (nat * list (string * path)) :=
  let length := String.length e.1 in
  let words := default [] (obj_get length acc) in
  obj_set length (words ++ [e]) acc.

(** [Object.entries(groups)] of [displayResults]. *)
Definition groups (results : list (string * path)) :
    list (nat * list (string * path)) :=
  fold_left group_step results [].

(** ** Drawing the grid (script.js, lines 191-228 and 231-248)

    Of the elements that [renderGrid] creates the embedding keeps the text
    and the coordinates stored in the data set; the pixel geometry is left
    out. *)

Record grid_cell : Type := GridCell {
  textContent : string;
  dataset_x : Z;
  dataset_y : Z
}.

(** Line 197: [Math.max(grid.length, grid[0].length)]. *)
Definition gridSize (g : grid) : result nat :=
  row0 ← index g 0;
  Ok (Nat.max (length g) (length row0)).

(** Lines 197 and 209-224: the size of the grid and the cells appended to
    the container, in order. *)
Definition renderGrid (g : grid) : result (nat * list grid_cell) :=
  size ← gridSize g;
  cells ← forEach (fun cells row i =>
                     forEach (fun cells char j =>
                                if negb (truthy (trim char)) then Ok cells
                                else Ok (cells ++ [GridCell char (Z.of_nat i)
                                                            (Z.of_nat j)]))
                             row cells)
                  g [];
  Ok (size, cells).

(** Lines 241-247 of [drawPath]: the cell selected by the data set of the
    first coordinate of the path, whose style is read next. *)
Definition drawPath_start (cells : list grid_cell) (p : path) :
    result grid_cell :=
  first ← index p 0;
  match list_find (fun c => dataset_x c = first.1 ∧ dataset_y c = first.2)
                  cells with
  | Some (_, startCell) => Ok startCell
  | None => TypeError
  end.

(** ** Further notions used in the statements *)

(** The prefix dictionary holds the non-empty beginnings of the words of the
    dictionary, and nothing else. *)
Definition prefixes_exact (lex : lexicon) : Prop :=
  ∀ s, s ∈ prefixDictionary lex ↔
       s ≠ EmptyString ∧ ∃ rest, s +:+ rest ∈ dictionary lex.

(** The words read along the first [k] cells of a path pass the prefix
    test, for every [k] from 1 to the length of the path. *)
Definition passes (lex : lexicon) (g : grid) (p : path) : Prop :=
  ∀ k w, (1 ≤ k ≤ length p)%nat → letters g (take k p) = Some w →
         toLowerCase w ∈ prefixDictionary lex.

(** The same for the proper beginnings of the path: what holds of the path
    of a node when [dfs] is entered. *)
Definition passed_before (lex : lexicon) (g : grid) (p : path) : Prop :=
  ∀ k w, (1 ≤ k < length p)%nat → letters g (take k p) = Some w →
         toLowerCase w ∈ prefixDictionary lex.

(** Every cell of the grid is a string of one character. *)
Definition single_chars (g : grid) : Prop :=
  Forall (Forall (fun cell => String.length cell = 1%nat)) g.

(** A string without lower-case letters. *)
Definition no_lower (s : string) : Prop :=
  Forall (fun d => is_lower d = false) (String.list_ascii_of_string s).

(** The groups of [displayResults] are well formed: the keys ascend, no
    group is empty, and the words of a group have the length that is its
    key. *)
Definition groups_ok (o : list (nat * list (string * path))) : Prop :=
  StronglySorted (fun a b => (a.1 < b.1)%nat) o ∧
  Forall (fun kv => kv.2 ≠ [] ∧
                    Forall (fun e : string * path => String.length e.1 = kv.1)
                           kv.2) o.

(** ** The button (script.js, lines 58-79)

    What [solve] reads and writes of the page: the class [solved] of the
    body, the value of the input field, the cells of the visual grid, the
    groups of the solutions, the text of the button and the messages shown
    by [alert].  [String.prototype.toUpperCase] of the host, applied to the
    value of the input field on line 85, is a parameter like
    [localeCompare]. *)

Record page : Type := Page {
  solved : bool;
  gridInput : string;
  visualGrid : list grid_cell;
  solutions : list (nat * list (string * path));
  button : string;
  alerts : list string
}.

Definition solve (localeCompare : string → string → Z)
    (toUpperCase : string → string)
    (dictionaryLoaded : bool) (lex : lexicon) (pg : page) : result page :=
  if solved pg then
    Ok (Page false EmptyString [] [] "Solve" (alerts pg))
  else if negb dictionaryLoaded then
    Ok (Page (solved pg) (gridInput pg) (visualGrid pg) (solutions pg)
             (button pg)
             (alerts pg ++ ["Dictionary is still loading. Please wait..."]))
  else
    let g := parseGrid (toUpperCase (gridInput pg)) in
    rendered ← renderGrid g;
    results ← findWords localeCompare lex g;
    Ok (Page true (gridInput pg) rendered.2 (groups results)
             "New Puzzle" (alerts pg)).

(** The element that [renderGrid] creates for a non-blank cell. *)
Definition cell_element (s : coord * string) : grid_cell :=
  GridCell s.2 s.1.1 s.1.2.

(** The content of a cell if it is usable: what the search sees of a
    grid. *)
Definition usable_at (g : grid) (c : coord) : option string :=
  match cell_at g c with
  | Some cell => if truthy (trim cell) then Some cell else None
  | None => None
  end.

(** * Properties *)

(** ** Strings *)

Lemma app_String c a b : String c a +:+ b = String c (a +:+ b).
Proof. reflexivity. Qed.

Lemma app_empty_l a : EmptyString +:+ a = a.
Proof. reflexivity. Qed.

Lemma app_empty_r a : a +:+ EmptyString = a.
Proof. induction a as [|c a IH]; [done|]. by rewrite app_String, IH. Qed.

Lemma app_assoc_string a b c : (a +:+ b) +:+ c = a +:+ (b +:+ c).
Proof.
  induction a as [|x a IH]; [done|]. by rewrite !app_String, IH.
Qed.

Lemma length_app_string a b :
  String.length (a +:+ b) = (String.length a + String.length b)%nat.
Proof.
  induction a as [|x a IH]; [done|]. rewrite app_String. simpl. by rewrite IH.
Qed.

Lemma toLowerCase_app a b :
  toLowerCase (a +:+ b) = toLowerCase a +:+ toLowerCase b.
Proof.
  induction a as [|x a IH]; [done|].
  rewrite app_String. simpl. by rewrite IH, app_String.
Qed.

Lemma length_toLowerCase a : String.length (toLowerCase a) = String.length a.
Proof. induction a as [|x a IH]; simpl; congruence. Qed.

Lemma substring_app a b :
  String.substring 0 (String.length a) (a +:+ b) = a.
Proof.
  induction a as [|x a IH].
  - simpl. by destruct b.
  - rewrite app_String. simpl. by rewrite IH.
Qed.

Lemma substring_full a : String.substring 0 (String.length a) a = a.
Proof. rewrite <- (app_empty_r a) at 2. apply substring_app. Qed.

Lemma truthy_length s : truthy s = true → (1 ≤ String.length s)%nat.
Proof. destruct s; simpl; [done|lia]. Qed.

Lemma trimEnd_nonempty s : truthy (trimEnd s) = true → truthy s = true.
Proof. by destruct s. Qed.

Lemma trimStart_nonempty s : truthy (trimStart s) = true → truthy s = true.
Proof. by destruct s. Qed.

Lemma trim_nonempty s : truthy (trim s) = true → (1 ≤ String.length s)%nat.
Proof.
  intros H. by apply truthy_length, trimStart_nonempty, trimEnd_nonempty.
Qed.

(** ** The dictionary *)

Lemma add_prefixes_mono word : ∀ prefix pd s,
  s ∈ pd → s ∈ add_prefixes prefix word pd.
Proof.
  induction word as [|c word IH]; intros prefix pd s Hs; simpl; [done|].
  apply IH. set_solver.
Qed.

Lemma add_prefixes_prefix word : ∀ prefix pd k,
  (1 ≤ k ≤ String.length word)%nat →
  prefix +:+ String.substring 0 k word ∈ add_prefixes prefix word pd.
Proof.
  induction word as [|c word IH]; intros prefix pd k Hk; simpl in *; [lia|].
  destruct k as [|k]; [lia|]. simpl.
  destruct k as [|k].
  - apply add_prefixes_mono.
    assert (String.substring 0 0 word = EmptyString) as -> by by destruct word.
    apply elem_of_union. left. by apply elem_of_singleton.
  - specialize (IH (prefix +:+ String c EmptyString)
                   ({[prefix +:+ String c EmptyString]} ∪ pd) (S k)).
    rewrite app_assoc_string in IH. apply IH. lia.
Qed.

Lemma add_line_prefix_closed lex line :
  prefix_closed lex → prefix_closed (add_line lex line).
Proof.
  intros Hlex. unfold add_line.
  destruct (truthy (toLowerCase (trim line))); [|done].
  intros w k Hw Hk. simpl in *.
  apply elem_of_union in Hw as [Hw|Hw].
  - apply elem_of_singleton in Hw as ->.
    rewrite <- (app_empty_l (String.substring _ _ _)).
    by apply add_prefixes_prefix.
  - apply add_prefixes_mono. by apply Hlex.
Qed.

Lemma add_line_nonempty lex line :
  (∀ w, w ∈ dictionary lex → truthy w = true) →
  ∀ w, w ∈ dictionary (add_line lex line) → truthy w = true.
Proof.
  intros Hlex w. unfold add_line.
  destruct (truthy (toLowerCase (trim line))) eqn:E; [|apply Hlex].
  simpl. intros [->%elem_of_singleton|Hw]%elem_of_union; auto.
Qed.

Lemma fold_add_line_invariant lines : ∀ lex,
  prefix_closed lex → (∀ w, w ∈ dictionary lex → truthy w = true) →
  prefix_closed (fold_left add_line lines lex) ∧
  (∀ w, w ∈ dictionary (fold_left add_line lines lex) → truthy w = true).
Proof.
  induction lines as [|line lines IH]; intros lex H1 H2; simpl; [done|].
  apply IH; [by apply add_line_prefix_closed | by apply add_line_nonempty].
Qed.

Lemma build_closed lines : prefix_closed (build lines).
Proof.
  apply (fold_add_line_invariant lines (Lexicon ∅ ∅)).
  - intros w k Hw. by apply not_elem_of_empty in Hw.
  - intros w Hw. by apply not_elem_of_empty in Hw.
Qed.

(** C5.  After [build] every prefix of length 1 to [length w] of every word
    [w] of the dictionary is in the prefix dictionary, and every word of the
    dictionary is itself in the prefix dictionary; this holds for every list
    of input lines.  The search takes the lexicon as a value and returns
    none, so the two sets are as [build] left them. *)
Theorem build_prefix_closure (lines : list string) :
  (∀ w k, w ∈ dictionary (build lines) →
          (1 ≤ k ≤ String.length w)%nat →
          String.substring 0 k w ∈ prefixDictionary (build lines)) ∧
  dictionary (build lines) ⊆ prefixDictionary (build lines).
Proof.
  destruct (fold_add_line_invariant lines (Lexicon ∅ ∅)) as [Hc Hn].
  - intros w k Hw. set_solver.
  - intros w Hw. set_solver.
  - split; [exact Hc|].
    intros w Hw. rewrite <- (substring_full w).
    apply Hc; [done|]. specialize (Hn w Hw). apply truthy_length in Hn. lia.
Qed.

Lemma build_prefix_closure_witness :
  "dog" ∈ dictionary (build ["dog"; "do"]) ∧
  (1 ≤ 2 ≤ String.length "dog")%nat ∧
  String.substring 0 2 "dog" ∈ prefixDictionary (build ["dog"; "do"]).
Proof.
  assert ("dog" ∈ dictionary (build ["dog"; "do"])) as Hw.
  { apply (bool_decide_unpack _). vm_compute. exact I. }
  assert (1 ≤ 2 ≤ String.length "dog")%nat as Hk by (simpl; lia).
  split; [exact Hw|]. split; [exact Hk|].
  exact (proj1 (build_prefix_closure ["dog"; "do"]) "dog" 2%nat Hw Hk).
Defined.

(** ** The map of found words *)

Lemma set_all_snoc evs e m :
  set_all (evs ++ [e]) m = map_set e.1 e.2 (set_all evs m).
Proof. unfold set_all. by rewrite fold_left_app. Qed.

Lemma set_all_app evs1 evs2 m :
  set_all (evs1 ++ evs2) m = set_all evs2 (set_all evs1 m).
Proof. unfold set_all. by rewrite fold_left_app. Qed.

Lemma map_get_set k k' v m :
  map_get k (map_set k' v m) = if decide (k' = k) then Some v else map_get k m.
Proof.
  induction m as [|[k0 v0] m IH]; simpl.
  - done.
  - destruct (decide (k0 = k')) as [->|Hne]; simpl.
    + by destruct (decide (k' = k)).
    + rewrite IH. destruct (decide (k0 = k)) as [->|]; [|done].
      by rewrite decide_False by congruence.
Qed.

Lemma map_set_keys k v m x : x ∈ (map_set k v m).*1 ↔ x = k ∨ x ∈ m.*1.
Proof.
  induction m as [|[k0 v0] m IH]; simpl.
  - set_solver.
  - destruct (decide (k0 = k)) as [->|Hne]; simpl; set_solver.
Qed.

Lemma map_set_NoDup k v m : NoDup m.*1 → NoDup (map_set k v m).*1.
Proof.
  induction m as [|[k0 v0] m IH]; simpl; intros Hnd.
  - apply NoDup_singleton.
  - apply NoDup_cons in Hnd as [Hk0 Hnd].
    destruct (decide (k0 = k)) as [->|Hne]; simpl.
    + by apply NoDup_cons.
    + apply NoDup_cons. split; [|by apply IH].
      rewrite map_set_keys. intros [?|?]; [congruence|done].
Qed.

Lemma set_all_NoDup evs : ∀ m, NoDup m.*1 → NoDup (set_all evs m).*1.
Proof.
  induction evs as [|e evs IH]; intros m Hnd; simpl; [done|].
  by apply IH, map_set_NoDup.
Qed.

Lemma map_get_elem_of k v m : NoDup m.*1 → (k, v) ∈ m ↔ map_get k m = Some v.
Proof.
  induction m as [|[k0 v0] m IH]; simpl; intros Hnd.
  - split; [by intros ?%elem_of_nil|done].
  - apply NoDup_cons in Hnd as [Hk0 Hnd]. rewrite elem_of_cons.
    destruct (decide (k0 = k)) as [->|Hne].
    + split; [|naive_solver]. intros [?|Hin]; [naive_solver|].
      exfalso. apply Hk0. by apply (list_elem_of_fmap_2 fst) in Hin.
    + rewrite (IH Hnd). naive_solver.
Qed.

Lemma map_get_elem_of_weak k v (m : word_map) :
  map_get k m = Some v → (k, v) ∈ m.
Proof.
  induction m as [|[k0 v0] m IH]; simpl; [done|].
  destruct (decide (k0 = k)) as [->|Hne].
  - intros [= ->]. by left.
  - intros H. right. by apply IH.
Qed.

Lemma map_get_set_all k evs : ∀ m,
  map_get k (set_all evs m) =
  match last_discovery k evs with Some v => Some v | None => map_get k m end.
Proof.
  unfold last_discovery.
  induction evs as [|e evs IH] using rev_ind; intros m; [done|].
  rewrite set_all_snoc, reverse_snoc, map_get_set. destruct e as [k' v]. simpl.
  destruct (decide (k' = k)); [done|]. apply IH.
Qed.

Lemma set_all_keys evs : ∀ m x, x ∈ (set_all evs m).*1 ↔ x ∈ m.*1 ∨ x ∈ evs.*1.
Proof.
  induction evs as [|e evs IH]; intros m x; simpl.
  - rewrite elem_of_nil. tauto.
  - rewrite IH, map_set_keys, elem_of_cons. tauto.
Qed.

(** The entries of the map after storing [evs] into the empty map: each
    discovered word with the last path discovered for it. *)
Lemma set_all_entries evs k v :
  (k, v) ∈ set_all evs [] ↔ last_discovery k evs = Some v.
Proof.
  rewrite map_get_elem_of by (apply set_all_NoDup; constructor).
  rewrite map_get_set_all. simpl. by destruct (last_discovery k evs).
Qed.

(** ** Sorting *)

Section SortFacts.
Context {A : Type} (cmp : A → A → Z).

Lemma insert_sorted_perm a l : insert_sorted cmp a l ≡ₚ a :: l.
Proof.
  induction l as [|b l IH]; simpl; [done|].
  destruct (cmp a b <=? 0); [done|]. rewrite IH. apply Permutation_swap.
Qed.

Lemma sort_perm l : sort cmp l ≡ₚ l.
Proof.
  induction l as [|a l IH]; simpl; [done|].
  by rewrite insert_sorted_perm, IH.
Qed.

Hypothesis cmp_total : ∀ a b, cmp a b ≤ 0 ∨ cmp b a ≤ 0.
Hypothesis cmp_trans : ∀ a b c, cmp a b ≤ 0 → cmp b c ≤ 0 → cmp a c ≤ 0.

Lemma insert_sorted_sorted a l :
  StronglySorted (fun x y => cmp x y ≤ 0) l →
  StronglySorted (fun x y => cmp x y ≤ 0) (insert_sorted cmp a l).
Proof.
  induction 1 as [|b l Hs IH Hb]; simpl.
  - repeat constructor.
  - destruct (Z.leb_spec (cmp a b) 0) as [Hab|Hab].
    + constructor; [by constructor|]. constructor; [done|].
      eapply Forall_impl; [exact Hb|]. intros c Hbc. by eapply cmp_trans.
    + constructor; [done|]. rewrite insert_sorted_perm.
      constructor; [|done]. destruct (cmp_total a b); [lia|done].
Qed.

Lemma sort_sorted l : StronglySorted (fun x y => cmp x y ≤ 0) (sort cmp l).
Proof.
  induction l as [|a l IH]; simpl; [constructor|].
  by apply insert_sorted_sorted.
Qed.
End SortFacts.

(** ** Cells and neighbours *)

Lemma index_lookup {A} (a : list A) (i : Z) v :
  0 ≤ i → a !! Z.to_nat i = Some v → index a i = Ok v.
Proof.
  unfold index. intros Hi ->. by destruct (Z.ltb_spec i 0); [lia|].
Qed.

(** The skip test never reads outside the grid: [neighbour] always returns,
    and it visits exactly the usable cells that are not yet visited. *)
Lemma neighbour_spec g visited x y d :
  neighbour g visited x y d =
  Ok (match cell_at g (x + d.1, y + d.2) with
      | Some cell =>
          if truthy (trim cell) &&
             negb (bool_decide ((x + d.1, y + d.2) ∈ visited))
          then Visit (x + d.1) (y + d.2) cell else Skip
      | None => Skip
      end).
Proof.
  unfold neighbour, cell_at. simpl.
  destruct (Z.ltb_spec (x + d.1) 0) as [Hx|Hx]; simpl; [done|].
  destruct (Z.ltb_spec (y + d.2) 0) as [Hy|Hy]; simpl; [done|].
  rewrite Z.geb_leb.
  destruct (Z.leb_spec (Z.of_nat (length g)) (x + d.1)) as [Hgx|Hgx].
  { rewrite (proj2 (lookup_ge_None g (Z.to_nat (x + d.1)))) by lia. done. }
  destruct (lookup_lt_is_Some_2 g (Z.to_nat (x + d.1))) as [row Hrow]; [lia|].
  rewrite (index_lookup _ _ _ Hx Hrow), Hrow. simpl.
  rewrite Z.geb_leb.
  destruct (Z.leb_spec (Z.of_nat (length row)) (y + d.2)) as [Hgy|Hgy].
  { rewrite (proj2 (lookup_ge_None row (Z.to_nat (y + d.2)))) by lia. done. }
  destruct (lookup_lt_is_Some_2 row (Z.to_nat (y + d.2))) as [cell Hcell];
    [lia|].
  rewrite (index_lookup _ _ _ Hy Hcell), Hcell. simpl.
  destruct (truthy (trim cell)); simpl; [|done].
  by destruct (bool_decide ((x + d.1, y + d.2) ∈ visited)).
Qed.

Lemma row_cells_spec row : ∀ i j c ch,
  (c, ch) ∈ row_cells i j row ↔
  ∃ k, c = (Z.of_nat i, Z.of_nat (j + k)) ∧ row !! k = Some ch ∧
       truthy (trim ch) = true.
Proof.
  induction row as [|char row IH]; intros i j c ch; simpl.
  - rewrite elem_of_nil. split; [done|]. by intros (k & _ & ? & _).
  - rewrite elem_of_app, IH. split.
    + intros [Hin|(k & -> & Hk & Ht)].
      * destruct (truthy (trim char)) eqn:E; [|by apply elem_of_nil in Hin].
        apply list_elem_of_singleton in Hin. injection Hin as -> ->.
        exists 0%nat. by rewrite Nat.add_0_r.
      * exists (S k). by rewrite Nat.add_succ_r.
    + intros ([|k] & -> & Hk & Ht); simpl in Hk.
      * injection Hk as ->. left. rewrite Ht, Nat.add_0_r.
        by apply list_elem_of_singleton.
      * right. exists k. by rewrite Nat.add_succ_r.
Qed.

Lemma grid_cells_spec g : ∀ i c ch,
  (c, ch) ∈ grid_cells i g ↔
  ∃ k l row, c = (Z.of_nat (i + k), Z.of_nat l) ∧ g !! k = Some row ∧
             row !! l = Some ch ∧ truthy (trim ch) = true.
Proof.
  induction g as [|row g IH]; intros i c ch; simpl.
  - rewrite elem_of_nil. split; [done|]. by intros (k & l & r & _ & ? & _).
  - rewrite elem_of_app, IH, row_cells_spec. split.
    + intros [(l & -> & Hl & Ht)|(k & l & r & -> & Hk & Hl & Ht)].
      * exists 0%nat, l, row. by rewrite Nat.add_0_r.
      * exists (S k), l, r. by rewrite Nat.add_succ_r.
    + intros ([|k] & l & r & -> & Hk & Hl & Ht); simpl in Hk.
      * injection Hk as ->. left. exists l. by rewrite Nat.add_0_r.
      * right. exists k, l, r. by rewrite Nat.add_succ_r.
Qed.

(** The start cells are the usable cells, each with its content. *)
Lemma starts_spec g c ch :
  (c, ch) ∈ starts g ↔ cell_at g c = Some ch ∧ truthy (trim ch) = true.
Proof.
  unfold starts, cell_at. rewrite grid_cells_spec. destruct c as [x y]. simpl.
  split.
  - intros (k & l & row & [= -> ->] & Hk & Hl & Ht).
    destruct (Z.ltb_spec (Z.of_nat k) 0); [lia|].
    destruct (Z.ltb_spec (Z.of_nat l) 0); [lia|]. simpl.
    by rewrite !Nat2Z.id, Hk.
  - intros [Hc Ht].
    destruct (Z.ltb_spec x 0) as [|Hx]; [done|].
    destruct (Z.ltb_spec y 0) as [|Hy]; [done|]. simpl in Hc.
    destruct (g !! Z.to_nat x) as [row|] eqn:Hrow; [|done]. simpl in Hc.
    exists (Z.to_nat x), (Z.to_nat y), row. rewrite !Z2Nat.id by lia. done.
Qed.

Lemma usable_starts g c : usable g c ↔ ∃ ch, (c, ch) ∈ starts g.
Proof. unfold usable. by setoid_rewrite starts_spec. Qed.

Lemma neighbour_total g visited x y d : ∃ m, neighbour g visited x y d = Ok m.
Proof. rewrite neighbour_spec. by eexists. Qed.

Lemma neighbour_Visit g visited x y d nx ny cell :
  neighbour g visited x y d = Ok (Visit nx ny cell) ↔
  nx = x + d.1 ∧ ny = y + d.2 ∧ cell_at g (nx, ny) = Some cell ∧
  truthy (trim cell) = true ∧ (nx, ny) ∉ visited.
Proof.
  rewrite neighbour_spec. split.
  - intros [= H]. destruct (cell_at g (x + d.1, y + d.2)) as [c|] eqn:Hc; [|done].
    destruct (truthy (trim c)) eqn:Ht; [|done].
    destruct (bool_decide _) eqn:Hv; [done|]. simpl in H.
    injection H as <- <- <-. by apply bool_decide_eq_false in Hv.
  - intros (-> & -> & -> & -> & Hv). simpl.
    by rewrite bool_decide_eq_false_2.
Qed.

(** ** The depth of the recursion *)

Lemma filter_length_le {A} (P Q : A → Prop)
    `{∀ x, Decision (P x)} `{∀ x, Decision (Q x)} (l : list A) :
  (∀ x, P x → Q x) → (length (filter P l) ≤ length (filter Q l))%nat.
Proof.
  intros HPQ. induction l as [|a l IH]; [done|].
  rewrite !filter_cons. destruct (decide (P a)), (decide (Q a)); simpl;
    [lia|naive_solver|lia|lia].
Qed.

Lemma filter_length_lt {A} (P Q : A → Prop)
    `{∀ x, Decision (P x)} `{∀ x, Decision (Q x)} (l : list A) a :
  (∀ x, P x → Q x) → a ∈ l → Q a → ¬ P a →
  (length (filter P l) < length (filter Q l))%nat.
Proof.
  intros HPQ Hin HQ HP. induction l as [|b l IH]; [by apply elem_of_nil in Hin|].
  rewrite !filter_cons. apply elem_of_cons in Hin as [<-|Hin].
  - rewrite decide_False, decide_True by done. simpl.
    pose proof (filter_length_le P Q l HPQ). lia.
  - specialize (IH Hin).
    destruct (decide (P b)), (decide (Q b)); simpl; [lia|naive_solver|lia|lia].
Qed.

(** Each recursive call adds a usable cell that was not yet visited: the
    number of remaining cells goes down. *)
Lemma remaining_visit g visited c cell :
  cell_at g c = Some cell → truthy (trim cell) = true → c ∉ visited →
  (remaining g (visited ∪ {[c]}) < remaining g visited)%nat.
Proof.
  intros Hc Ht Hv. unfold remaining.
  apply (filter_length_lt _ _ _ (c, cell)); simpl.
  - intros s Hs. set_solver.
  - by apply starts_spec.
  - done.
  - set_solver.
Qed.

Lemma remaining_start g s :
  s ∈ starts g → (remaining g {[s.1]} < usable_cells g)%nat.
Proof.
  intros Hs. unfold remaining, usable_cells.
  apply (length_filter_lt _ _ s); [done|]. set_solver.
Qed.

(** ** The search and its sequence of discoveries *)

Lemma for_of_app {A St} (body : St → A → result St) l1 l2 s :
  for_of body (l1 ++ l2) s = for_of body l1 s ≫= for_of body l2.
Proof.
  revert s. induction l1 as [|a l1 IH]; intros s; simpl; [done|].
  destruct (body s a); simpl; [apply IH|done|done].
Qed.

Section SearchFacts.

Variable lex : lexicon.
Variable g : grid.

Lemma row_loop_starts fuel (i : nat) row : ∀ j words,
  forEach_from j
    (fun words char j =>
       if truthy (trim char) then
         dfs lex g fuel (Z.of_nat i) (Z.of_nat j)
             [(Z.of_nat i, Z.of_nat j)] char
             {[(Z.of_nat i, Z.of_nat j)]} words
       else Ok words) row words =
  for_of (start_from lex g fuel) (row_cells i j row) words.
Proof.
  induction row as [|char row IH]; intros j words; simpl; [done|].
  rewrite for_of_app.
  destruct (truthy (trim char)); simpl.
  - change (start_from lex g fuel words (Z.of_nat i, Z.of_nat j, char))
      with (dfs lex g fuel (Z.of_nat i) (Z.of_nat j)
                [(Z.of_nat i, Z.of_nat j)] char
                {[(Z.of_nat i, Z.of_nat j)]} words).
    destruct (dfs lex g fuel _ _ _ _ _ _); simpl; [apply IH|done|done].
  - apply IH.
Qed.

Lemma grid_loop_starts fuel rows : ∀ i words,
  forEach_from i
    (fun words row i =>
       forEach (fun words char j =>
                  if truthy (trim char) then
                    dfs lex g fuel (Z.of_nat i) (Z.of_nat j)
                        [(Z.of_nat i, Z.of_nat j)] char
                        {[(Z.of_nat i, Z.of_nat j)]} words
                  else Ok words) row words) rows words =
  for_of (start_from lex g fuel) (grid_cells i rows) words.
Proof.
  unfold forEach.
  induction rows as [|row rows IH]; intros i words; simpl; [done|].
  rewrite for_of_app, (row_loop_starts fuel i row 0%nat words).
  destruct (for_of _ (row_cells _ _ _) _); simpl; [apply IH|done|done].
Qed.

Lemma search_starts fuel :
  search lex g fuel = for_of (start_from lex g fuel) (starts g) [].
Proof. apply grid_loop_starts. Qed.

End SearchFacts.

Section TraversalFacts.

Variable lex : lexicon.
Variable g : grid.

(** With a depth budget above the number of remaining cells, [dfs] returns
    normally, and the map it returns is the map it was given with the
    discoveries of the traversal stored in order. *)
Lemma dfs_link fuel : ∀ x y p w visited words,
  (remaining g visited < fuel)%nat →
  dfs lex g fuel x y p w visited words =
  Ok (set_all (dfs_trace lex g fuel x y p w visited) words).
Proof.
  induction fuel as [|fuel IH]; intros x y p w visited words Hf; [lia|].
  cbn [dfs dfs_trace].
  destruct (bool_decide (toLowerCase w ∈ prefixDictionary lex));
    cbn [negb]; [|done].
  rewrite set_all_app.
  assert (set_all (if bool_decide (toLowerCase w ∈ dictionary lex)
                   then [(w, p)] else []) words =
          (if bool_decide (toLowerCase w ∈ dictionary lex)
           then map_set w p words else words)) as ->
    by by destruct (bool_decide _).
  generalize (if bool_decide (toLowerCase w ∈ dictionary lex)
              then map_set w p words else words).
  generalize directions as ds.
  induction ds as [|d ds IHds]; intros ws; [done|].
  cbn [for_of]. rewrite bind_cons, set_all_app.
  destruct (neighbour_total g visited x y d) as [m Hm]. rewrite Hm.
  destruct m as [|nx ny cell]; cbn [mbind result_bind].
  - apply IHds.
  - apply neighbour_Visit in Hm as (_ & _ & Hc & Ht & Hv).
    rewrite IH; [apply IHds|].
    pose proof (remaining_visit g visited (nx, ny) cell Hc Ht Hv). lia.
Qed.

(** Above that budget the discoveries do not depend on the budget. *)
Lemma dfs_trace_fuel fuel : ∀ fuel' x y p w visited,
  (remaining g visited < fuel)%nat → (remaining g visited < fuel')%nat →
  dfs_trace lex g fuel x y p w visited =
  dfs_trace lex g fuel' x y p w visited.
Proof.
  induction fuel as [|fuel IH]; intros [|fuel'] x y p w visited Hf Hf';
    [lia..|].
  cbn [dfs_trace].
  destruct (bool_decide (toLowerCase w ∈ prefixDictionary lex));
    cbn [negb]; [|done].
  f_equal. apply list_bind_ext; [|done]. intros d.
  destruct (neighbour_total g visited x y d) as [m Hm]. rewrite Hm.
  destruct m as [|nx ny cell]; [done|].
  apply neighbour_Visit in Hm as (_ & _ & Hc & Ht & Hv).
  pose proof (remaining_visit g visited (nx, ny) cell Hc Ht Hv).
  apply IH; lia.
Qed.

Lemma start_from_link fuel s words :
  s ∈ starts g → (usable_cells g ≤ fuel)%nat →
  start_from lex g fuel words s =
  Ok (set_all (dfs_trace lex g (usable_cells g) s.1.1 s.1.2 [s.1] s.2 {[s.1]})
              words).
Proof.
  intros Hs Hf. pose proof (remaining_start g s Hs).
  unfold start_from. rewrite dfs_link by lia.
  by rewrite (dfs_trace_fuel fuel (usable_cells g)) by lia.
Qed.

(** The search stores the discoveries, in order, into the empty map. *)
Lemma search_link fuel :
  (usable_cells g ≤ fuel)%nat →
  search lex g fuel = Ok (set_all (discoveries lex g) []).
Proof.
  intros Hf. rewrite search_starts. unfold discoveries.
  assert (∀ l words, l ⊆ starts g →
    for_of (start_from lex g fuel) l words =
    Ok (set_all (l ≫= fun s => dfs_trace lex g (usable_cells g)
                                 s.1.1 s.1.2 [s.1] s.2 {[s.1]}) words))
    as Hloop.
  { induction l as [|s l IHl]; intros words Hl; [done|].
    cbn [for_of]. rewrite bind_cons, set_all_app.
    rewrite start_from_link; [|apply Hl; by left|done].
    cbn [mbind result_bind]. apply IHl. intros s' Hs'. apply Hl. by right. }
  by apply Hloop.
Qed.

End TraversalFacts.

Lemma findWords_fuel_eq localeCompare lex g fuel :
  (usable_cells g ≤ fuel)%nat →
  findWords_fuel localeCompare fuel lex g =
  Ok (sort (compareEntries localeCompare) (set_all (discoveries lex g) [])).
Proof. intros Hf. unfold findWords_fuel. by rewrite search_link. Qed.

Lemma findWords_eq localeCompare lex g :
  findWords localeCompare lex g =
  Ok (sort (compareEntries localeCompare) (set_all (discoveries lex g) [])).
Proof. by apply findWords_fuel_eq. Qed.

(** The entries returned: each discovered word with the last path
    discovered for it. *)
Lemma sorted_entries localeCompare evs k v :
  (k, v) ∈ sort (compareEntries localeCompare) (set_all evs []) ↔
  last_discovery k evs = Some v.
Proof. by rewrite sort_perm, set_all_entries. Qed.

(** ** Paths *)

Lemma letters_app g p1 p2 :
  letters g (p1 ++ p2) =
  w1 ← letters g p1; w2 ← letters g p2; Some (w1 +:+ w2).
Proof.
  induction p1 as [|c p1 IH]; simpl.
  - destruct (letters g p2); simpl; by rewrite ?app_empty_l.
  - destruct (cell_at g c) as [cell|]; simpl; [|done]. rewrite IH.
    destruct (letters g p1) as [w1|]; simpl; [|done].
    destruct (letters g p2) as [w2|]; simpl; [|done].
    by rewrite app_assoc_string.
Qed.

Lemma letters_snoc g p c w cell :
  letters g p = Some w → cell_at g c = Some cell →
  letters g (p ++ [c]) = Some (w +:+ cell).
Proof.
  intros Hp Hc. rewrite letters_app, Hp. simpl. rewrite Hc. simpl.
  by rewrite app_empty_r.
Qed.

Lemma linked_snoc p c0 c :
  linked p → last p = Some c0 → adjacent c0 c → linked (p ++ [c]).
Proof.
  induction p as [|c1 p IH]; [done|]. destruct p as [|c2 p].
  - intros _ [= ->] Hadj. simpl. done.
  - intros [H12 Hl] Hlast Hadj. split; [done|]. by apply IH.
Qed.

Lemma linked_app_adjacent p c0 c ext :
  linked (p ++ c :: ext) → last p = Some c0 → adjacent c0 c.
Proof.
  induction p as [|c1 p IH]; [done|]. destruct p as [|c2 p].
  - intros [H _] [= ->]. done.
  - intros [_ Hl] Hlast. by apply IH.
Qed.

Lemma adjacent_direction x y d : d ∈ directions → adjacent (x, y) (x + d.1, y + d.2).
Proof.
  unfold adjacent. simpl. intros Hd.
  replace (x + d.1 - x, y + d.2 - y) with d; [done|].
  destruct d as [dx dy]. simpl. f_equal; lia.
Qed.

Lemma simple_path_length g p : simple_path g p → (length p ≤ usable_cells g)%nat.
Proof.
  intros (_ & Hnd & Hu & _). unfold usable_cells.
  rewrite <- (length_fmap fst (starts g)).
  apply submseteq_length, NoDup_submseteq; [done|].
  intros c Hc. rewrite Forall_forall in Hu.
  destruct (proj1 (usable_starts g c) (Hu c Hc)) as [ch Hch].
  by apply (list_elem_of_fmap_2 fst) in Hch.
Qed.

Lemma prefix_closed_app lex a b :
  prefix_closed lex → a +:+ b ∈ dictionary lex → (1 ≤ String.length a)%nat →
  a ∈ prefixDictionary lex.
Proof.
  intros Hlex Hw Hlen. rewrite <- (substring_app a b).
  apply Hlex; [done|]. rewrite length_app_string. lia.
Qed.

Lemma node_ok_start g s :
  s ∈ starts g → node_ok g s.1.1 s.1.2 [s.1] s.2 {[s.1]}.
Proof.
  destruct s as [c ch]. intros [Hc Ht]%starts_spec. simpl.
  repeat split.
  - done.
  - apply NoDup_singleton.
  - constructor; [|constructor]. by exists ch.
  - by destruct c.
  - simpl. rewrite Hc. simpl. by rewrite app_empty_r.
  - intros ?%list_elem_of_singleton. by apply elem_of_singleton.
  - intros ?%elem_of_singleton. by apply list_elem_of_singleton.
Qed.

Lemma node_ok_visit g x y p w visited d nx ny cell :
  node_ok g x y p w visited → d ∈ directions →
  neighbour g visited x y d = Ok (Visit nx ny cell) →
  node_ok g nx ny (p ++ [(nx, ny)]) (w +:+ cell) (visited ∪ {[(nx, ny)]}).
Proof.
  intros ((Hne & Hnd & Hu & Hl) & Hlast & Hw & Hv) Hd
         (-> & -> & Hc & Ht & Hnv)%neighbour_Visit.
  repeat split.
  - by destruct p.
  - apply NoDup_app. split; [done|]. split; [|apply NoDup_singleton].
    intros c Hcp ->%list_elem_of_singleton. by apply Hnv, Hv.
  - apply Forall_app. split; [done|]. constructor; [|constructor].
    by exists cell.
  - eapply linked_snoc; [done..|]. by apply adjacent_direction.
  - apply last_snoc.
  - by apply letters_snoc.
  - intros [?|?%list_elem_of_singleton]%elem_of_app; apply elem_of_union;
      [left; by apply Hv | right; by apply elem_of_singleton].
  - intros [?|?%elem_of_singleton]%elem_of_union; apply elem_of_app;
      [left; by apply Hv | right; by apply list_elem_of_singleton].
Qed.

Section TraceFacts.

Variable lex : lexicon.
Variable g : grid.

Lemma dfs_trace_sound fuel : ∀ x y p w visited e,
  node_ok g x y p w visited →
  e ∈ dfs_trace lex g fuel x y p w visited → sound_entry lex g e.
Proof.
  induction fuel as [|fuel IH]; intros x y p w visited e Hnode;
    cbn [dfs_trace]; [by intros ?%elem_of_nil|].
  destruct (bool_decide (toLowerCase w ∈ prefixDictionary lex)) eqn:Hpre;
    cbn [negb]; [|by intros ?%elem_of_nil].
  apply bool_decide_eq_true in Hpre.
  intros [Hin|Hin]%elem_of_app.
  - destruct (bool_decide (toLowerCase w ∈ dictionary lex)) eqn:Hdic;
      [|by apply elem_of_nil in Hin].
    apply bool_decide_eq_true in Hdic.
    apply list_elem_of_singleton in Hin as ->.
    destruct Hnode as (Hsp & _ & Hw & _). by split.
  - apply list_elem_of_bind in Hin as (d & Hin & Hd).
    destruct (neighbour g visited x y d) as [[|nx ny cell]| |] eqn:Hm;
      try by apply elem_of_nil in Hin.
    eapply IH; [|exact Hin]. by eapply node_ok_visit.
Qed.

Lemma discoveries_sound e : e ∈ discoveries lex g → sound_entry lex g e.
Proof.
  unfold discoveries. intros (s & Hin & Hs)%list_elem_of_bind.
  eapply dfs_trace_sound; [|exact Hin]. by apply node_ok_start.
Qed.

(** Every simple path that extends the path of a node, whose word is in
    the dictionary and all of whose intermediate words pass the prefix
    test, is discovered below that node. *)
Lemma dfs_trace_complete ext : ∀ fuel x y p w visited,
  (length ext < fuel)%nat →
  node_ok g x y p w visited →
  simple_path g (p ++ ext) →
  (∀ ext1 ext2 w1, ext = ext1 ++ ext2 → letters g (p ++ ext1) = Some w1 →
                   toLowerCase w1 ∈ prefixDictionary lex) →
  ∀ w', letters g (p ++ ext) = Some w' → toLowerCase w' ∈ dictionary lex →
        (w', p ++ ext) ∈ dfs_trace lex g fuel x y p w visited.
Proof.
  induction ext as [|c ext IH];
    intros [|fuel] x y p w visited Hf Hnode Hsp Hpre w' Hw' Hdic;
    simpl in Hf; try lia; cbn [dfs_trace].
  - rewrite app_nil_r in *.
    destruct Hnode as (_ & _ & Hw & _).
    rewrite Hw in Hw'. injection Hw' as <-.
    rewrite bool_decide_eq_true_2
      by (apply (Hpre [] []); [done|by rewrite app_nil_r]).
    cbn [negb]. rewrite bool_decide_eq_true_2 by done.
    apply elem_of_app. left. by apply list_elem_of_singleton.
  - pose proof Hnode as ((_ & _ & _ & _) & Hlast & Hw & Hv).
    rewrite bool_decide_eq_true_2
      by (apply (Hpre [] (c :: ext)); [done|by rewrite app_nil_r]).
    cbn [negb]. apply elem_of_app. right.
    pose proof Hsp as (_ & Hnd & Hu & Hl).
    pose proof (linked_app_adjacent _ _ _ _ Hl Hlast) as Hadj.
    apply Forall_app in Hu as [_ Hu]. apply Forall_cons in Hu as [Hc _].
    destruct Hc as (cell & Hc & Ht).
    apply NoDup_app in Hnd as (_ & Hnd & _).
    assert (c ∉ visited) as Hnv.
    { intros Hcv%Hv. apply (Hnd c Hcv). by left. }
    apply list_elem_of_bind. exists (c.1 - x, c.2 - y). split; [|exact Hadj].
    assert (neighbour g visited x y (c.1 - x, c.2 - y) = Ok (Visit c.1 c.2 cell))
      as Hm.
    { apply neighbour_Visit. simpl. destruct c as [cx cy]. simpl.
      repeat split; [lia|lia|done..]. }
    rewrite Hm.
    replace (p ++ c :: ext) with ((p ++ [(c.1, c.2)]) ++ ext)
      by (destruct c; by rewrite <- app_assoc).
    apply IH.
    + lia.
    + by eapply node_ok_visit.
    + destruct c. by rewrite <- app_assoc.
    + intros ext1 ext2 w1 -> Hw1. apply (Hpre (c :: ext1) ext2); [done|].
      destruct c. by rewrite <- app_assoc in Hw1.
    + destruct c. by rewrite <- app_assoc.
    + done.
Qed.

(** With a prefix-closed lexicon every simple path that spells a
    dictionary word is discovered. *)
Lemma discoveries_complete p w :
  prefix_closed lex → simple_path g p → letters g p = Some w →
  toLowerCase w ∈ dictionary lex → (w, p) ∈ discoveries lex g.
Proof.
  intros Hlex Hsp Hw Hdic. destruct p as [|c ext]; [by destruct Hsp|].
  pose proof Hsp as (_ & _ & Hu & _). apply Forall_cons in Hu as [Hc _].
  destruct Hc as (cell & Hc & Ht).
  assert ((c, cell) ∈ starts g) as Hs by by apply starts_spec.
  unfold discoveries. apply list_elem_of_bind. exists (c, cell).
  split; [|done]. simpl.
  apply (dfs_trace_complete ext _ _ _ [c]); try done.
  - pose proof (simple_path_length g _ Hsp). simpl in *. lia.
  - by apply (node_ok_start g (c, cell)).
  - intros ext1 ext2 w1 -> Hw1.
    change (c :: ext1 ++ ext2) with (([c] ++ ext1) ++ ext2) in Hw.
    rewrite letters_app, Hw1 in Hw. simpl in Hw.
    destruct (letters g ext2) as [w2|]; [|done]. injection Hw as <-.
    rewrite toLowerCase_app in Hdic.
    apply (prefix_closed_app lex _ _ Hlex Hdic).
    rewrite length_toLowerCase. simpl in Hw1. rewrite Hc in Hw1.
    simpl in Hw1. destruct (letters g ext1) as [w0|]; [|done].
    injection Hw1 as <-. rewrite length_app_string.
    pose proof (trim_nonempty _ Ht). lia.
Qed.

End TraceFacts.

(** ** The returned sequence *)

Lemma StronglySorted_impl {A} (R R' : A → A → Prop) l :
  (∀ a b, R a b → R' a b) → StronglySorted R l → StronglySorted R' l.
Proof.
  intros HR. induction 1 as [|a l Hs IH Ha]; constructor; [done|].
  eapply Forall_impl; [exact Ha|]. intros b. apply HR.
Qed.

Lemma compareEntries_le localeCompare a b :
  compareEntries localeCompare a b ≤ 0 ↔
  entry_le (fun x y => localeCompare x y ≤ 0) a b.
Proof.
  unfold compareEntries, entry_le.
  destruct (Z.eqb_spec (Z.of_nat (String.length a.1) -
                        Z.of_nat (String.length b.1)) 0) as [Hd|Hd].
  - split; [intros H; right; split; [lia|done]|]. intros [?|[_ ?]]; [lia|done].
  - split; [intros H; left; lia|]. intros [?|[? _]]; lia.
Qed.

Lemma sorted_keys_NoDup localeCompare evs :
  NoDup (sort (compareEntries localeCompare) (set_all evs [])).*1.
Proof.
  rewrite sort_perm. apply set_all_NoDup. constructor.
Qed.

Lemma sorted_keys localeCompare evs k :
  k ∈ (sort (compareEntries localeCompare) (set_all evs [])).*1 ↔ k ∈ evs.*1.
Proof.
  rewrite sort_perm, set_all_keys. simpl. rewrite elem_of_nil. tauto.
Qed.



(** ** The host collation is a total preorder *)

Lemma N_compare_trans (x y z : N) c :
  (x ?= y)%N = c → (y ?= z)%N = c → (x ?= z)%N = c.
Proof.
  destruct c; intros H1 H2.
  - rewrite N.compare_eq_iff in *. congruence.
  - rewrite N.compare_lt_iff in *. lia.
  - rewrite N.compare_gt_iff in *. lia.
Qed.

Lemma root_localeCompare_total a b :
  root_localeCompare a b ≤ 0 ∨ root_localeCompare b a ≤ 0.
Proof.
  unfold root_localeCompare.
  rewrite (@list_compare_antisym _ _ N.compare_eq_iff (sort_key a) (sort_key b))
    by (intros; apply N.compare_antisym).
  destruct (list_compare N.compare (sort_key a) (sort_key b)); simpl; lia.
Qed.

Lemma root_localeCompare_trans a b c :
  root_localeCompare a b ≤ 0 → root_localeCompare b c ≤ 0 →
  root_localeCompare a c ≤ 0.
Proof.
  unfold root_localeCompare.
  destruct (list_compare N.compare (sort_key a) (sort_key b)) eqn:Hab;
    [| |lia].
  - apply (@list_compare_refl _ _ N.compare_eq_iff) in Hab. by rewrite Hab.
  - destruct (list_compare N.compare (sort_key b) (sort_key c)) eqn:Hbc;
      [| |lia]; intros _ _.
    + apply (@list_compare_refl _ _ N.compare_eq_iff) in Hbc.
      rewrite <- Hbc, Hab. lia.
    + rewrite (@list_compare_trans _ _ N.compare_eq_iff _ _ _ Lt
                 N_compare_trans (fun x y => N.compare_antisym x y) Hab Hbc).
      lia.
Qed.

(** * The claims *)

(** C1 (as amended).  The result of [findWords] maps every word to the LAST
    path discovered for it in the traversal order (start cells in row-major
    order, the eight directions in their fixed order): line 119 stores
    unconditionally, so each later discovery of a word replaces the path
    recorded before.  The statement: [findWords] returns, and a pair
    [(w, p)] is in the returned sequence exactly when [p] is the last path
    discovered for [w]. *)
Theorem findWords_last_path_wins localeCompare lex g :
  ∃ r, findWords localeCompare lex g = Ok r ∧
       ∀ w p, (w, p) ∈ r ↔ last_discovery w (discoveries lex g) = Some p.
Proof.
  eexists. split; [apply findWords_eq|]. intros w p. apply sorted_entries.
Qed.

(** C1 (as stated) fails: in the row B A B with the word "ab", the path
    found first for "AB" goes left from the A, the path returned goes
    right. *)
Lemma first_path_overwritten :
  ∃ r, findWords root_localeCompare (build ["ab"]) [["B"; "A"; "B"]] = Ok r ∧
       ¬ first_path_wins (build ["ab"]) [["B"; "A"; "B"]] r.
Proof.
  exists [("AB", [(0, 1); (0, 2)])]. split; [by vm_compute|].
  intros H. specialize (H "AB" [(0, 1); (0, 2)]).
  assert (first_discovery "AB" (discoveries (build ["ab"]) [["B"; "A"; "B"]])
          = Some [(0, 1); (0, 0)]) as Hfirst by by vm_compute.
  rewrite Hfirst in H. discriminate H. by left.
Qed.

(** C2 (as amended).  The sequence returned by [findWords] is sorted by word
    length ascending, and words of equal length are ordered by the host's
    [localeCompare] on the stored original-case word, for every host
    comparison that is a total preorder. *)
Theorem findWords_sorted localeCompare lex g :
  (∀ a b, localeCompare a b ≤ 0 ∨ localeCompare b a ≤ 0) →
  (∀ a b c, localeCompare a b ≤ 0 → localeCompare b c ≤ 0 →
            localeCompare a c ≤ 0) →
  ∃ r, findWords localeCompare lex g = Ok r ∧
       StronglySorted (entry_le (fun a b => localeCompare a b ≤ 0)) r.
Proof.
  intros Htotal Htrans. eexists. split; [apply findWords_eq|].
  eapply StronglySorted_impl; [intros a b; apply compareEntries_le|].
  apply sort_sorted.
  - intros a b. rewrite !compareEntries_le. unfold entry_le.
    destruct (Htotal a.1 b.1);
      destruct (lt_eq_lt_dec (String.length a.1) (String.length b.1))
        as [[?|?]|?]; auto 6 with lia.
  - intros a b c. rewrite !compareEntries_le. unfold entry_le.
    intros [?|[? ?]] [?|[? ?]]; [left; lia..|].
    right. split; [lia|]. by eapply Htrans.
Qed.

Lemma findWords_sorted_witness :
  ∃ r, findWords root_localeCompare (build ["cat"; "cats"; "at"; "as"])
                 [["C"; "A"]; ["T"; "S"]] = Ok r ∧
       StronglySorted (entry_le (fun a b => root_localeCompare a b ≤ 0)) r.
Proof.
  exact (findWords_sorted root_localeCompare
           (build ["cat"; "cats"; "at"; "as"]) [["C"; "A"]; ["T"; "S"]]
           root_localeCompare_total root_localeCompare_trans).
Defined.

(** C2 (as stated) fails: with the host collation a lower-case "a" is
    returned before an upper-case "B", against the ordinal order. *)
Lemma findWords_not_ordinal :
  ∃ r, findWords root_localeCompare (build ["a"; "b"]) [["a"; "B"]] = Ok r ∧
       ¬ StronglySorted (entry_le ordinal_le) r.
Proof.
  exists [("a", [(0, 0)]); ("B", [(0, 1)])]. split; [by vm_compute|].
  intros [_ Hall]%StronglySorted_inv.
  apply Forall_cons in Hall as [[Hlt|[_ Hle]] _].
  - simpl in Hlt. lia.
  - by vm_compute in Hle.
Qed.

(** Concrete simple paths are checked by evaluation. *)
Ltac solve_simple_path :=
  split; [done|]; split; [apply (bool_decide_unpack _); by vm_compute|];
  split;
  [ repeat constructor; eexists; (split; [reflexivity|by vm_compute])
  | simpl; unfold adjacent; repeat split;
    apply (bool_decide_unpack _); by vm_compute ].

(** C3.  Soundness: [findWords] returns, and for every pair [(w, p)] it
    returns, the letters of the grid along [p] concatenate to [w] (exactly,
    hence also up to case), no coordinate occurs twice in [p], every
    coordinate of [p] is an in-bounds non-blank cell, and consecutive
    coordinates differ by one of the eight offsets. *)
Theorem findWords_sound localeCompare lex g :
  ∃ r, findWords localeCompare lex g = Ok r ∧
       ∀ w p, (w, p) ∈ r →
         letters g p = Some w ∧
         toLowerCase <$> letters g p = Some (toLowerCase w) ∧
         NoDup p ∧ Forall (usable g) p ∧ linked p.
Proof.
  eexists. split; [apply findWords_eq|]. intros w p Hin.
  rewrite sort_perm in Hin.
  assert (sound_entry lex g (w, p)) as ((_ & Hnd & Hu & Hl) & Hw & _).
  { apply discoveries_sound.
    apply set_all_entries in Hin. unfold last_discovery in Hin.
    apply map_get_elem_of_weak in Hin. by apply elem_of_reverse. }
  simpl in *. rewrite Hw. done.
Qed.

Lemma findWords_sound_witness :
  ∃ r, findWords root_localeCompare (build ["cat"; "cats"; "at"; "as"])
                 [["C"; "A"]; ["T"; "S"]] = Ok r ∧
       ("CAT", [(0, 0); (0, 1); (1, 0)]) ∈ r ∧
       letters [["C"; "A"]; ["T"; "S"]] [(0, 0); (0, 1); (1, 0)] = Some "CAT" ∧
       NoDup [(0, 0); (0, 1); (1, 0)] ∧
       Forall (usable [["C"; "A"]; ["T"; "S"]]) [(0, 0); (0, 1); (1, 0)] ∧
       linked [(0, 0); (0, 1); (1, 0)].
Proof.
  destruct (findWords_sound root_localeCompare
              (build ["cat"; "cats"; "at"; "as"]) [["C"; "A"]; ["T"; "S"]])
    as (r & Hr & Hall).
  exists r. split; [exact Hr|].
  assert (("CAT", [(0, 0); (0, 1); (1, 0)]) ∈ r) as Hin.
  { assert (findWords root_localeCompare (build ["cat"; "cats"; "at"; "as"])
              [["C"; "A"]; ["T"; "S"]] =
            Ok [("AS", [(0, 1); (1, 1)]); ("AT", [(0, 1); (1, 0)]);
                ("CAT", [(0, 0); (0, 1); (1, 0)]);
                ("CATS", [(0, 0); (0, 1); (1, 0); (1, 1)])]) as Hc
      by (vm_compute; reflexivity).
    rewrite Hc in Hr. injection Hr as <-. do 2 right. left. }
  split; [exact Hin|].
  destruct (Hall _ _ Hin) as (H1 & _ & H2 & H3 & H4). auto.
Defined.




(** C6.  Pruning comes first: at a node whose lower-cased word is not in
    the prefix dictionary [dfs] returns at once with the map unchanged.  No
    word is recorded there, also when the lower-cased word is in the
    dictionary, and no neighbour is searched: a budget of a single
    activation ([fuel = 0] below) is enough, whatever the neighbours are. *)
Theorem dfs_prunes lex g fuel x y p w visited words :
  toLowerCase w ∉ prefixDictionary lex →
  dfs lex g (S fuel) x y p w visited words = Ok words ∧
  dfs_trace lex g (S fuel) x y p w visited = [].
Proof.
  intros Hpre. cbn [dfs dfs_trace].
  by rewrite bool_decide_eq_false_2 by done.
Qed.

Lemma dfs_prunes_witness :
  ("x" ∈ dictionary (Lexicon {["x"]} ∅)) ∧
  (toLowerCase "X" ∉ prefixDictionary (Lexicon {["x"]} ∅)) ∧
  dfs (Lexicon {["x"]} ∅) [["X"; "Y"]] 1 0 0 [(0, 0)] "X" {[(0, 0)]} []
  = Ok [] ∧
  dfs_trace (Lexicon {["x"]} ∅) [["X"; "Y"]] 1 0 0 [(0, 0)] "X" {[(0, 0)]}
  = [].
Proof.
  assert (toLowerCase "X" ∉ prefixDictionary (Lexicon {["x"]} ∅)) as Hpre.
  { simpl. apply not_elem_of_empty. }
  split; [apply (bool_decide_unpack _); by vm_compute|].
  split; [exact Hpre|].
  exact (dfs_prunes (Lexicon {["x"]} ∅) [["X"; "Y"]] 0 0 0 [(0, 0)] "X"
           {[(0, 0)]} [] Hpre).
Defined.

(** C7.  A grid with zero rows: [findWords] returns the empty sequence, for
    every lexicon. *)
Theorem findWords_empty_grid localeCompare lex :
  findWords localeCompare lex [] = Ok [].
Proof. reflexivity. Qed.

(** C8.  Termination: the nesting of [dfs] activations never exceeds the
    number of usable cells, because each recursive call adds a usable cell
    that was not yet visited.  With a depth budget of [usable_cells g]
    activations (a start activation and strictly fewer than
    [usable_cells g] levels of recursive calls below it) [findWords] returns
    normally, and a larger budget changes nothing; and every cell that the
    direction loop recurses into is usable and not yet visited, so that the
    number of cells left to visit goes down with each recursive call. *)
Theorem dfs_depth_bound localeCompare lex g :
  (∀ fuel, (usable_cells g ≤ fuel)%nat →
     ∃ r, findWords localeCompare lex g = Ok r ∧
          findWords_fuel localeCompare fuel lex g = Ok r) ∧
  (∀ visited x y d nx ny cell,
     neighbour g visited x y d = Ok (Visit nx ny cell) →
     ((nx, ny) ∉ visited) ∧ usable g (nx, ny) ∧
     (remaining g (visited ∪ {[(nx, ny)]}) < remaining g visited)%nat).
Proof.
  split.
  - intros fuel Hf. eexists.
    split; [apply findWords_eq|by apply findWords_fuel_eq].
  - intros visited x y d nx ny cell (_ & _ & Hc & Ht & Hv)%neighbour_Visit.
    split; [done|]. split; [by exists cell|]. by eapply remaining_visit.
Qed.

Lemma dfs_depth_bound_witness :
  (usable_cells [["C"; "A"]; ["T"; " "]] ≤ 3)%nat ∧
  ∃ r, findWords root_localeCompare (build ["cat"; "act"])
                 [["C"; "A"]; ["T"; " "]] = Ok r ∧
       findWords_fuel root_localeCompare 3 (build ["cat"; "act"])
                      [["C"; "A"]; ["T"; " "]] = Ok r.
Proof.
  assert (usable_cells [["C"; "A"]; ["T"; " "]] ≤ 3)%nat as Hf
    by (vm_compute; lia).
  split; [exact Hf|].
  exact (proj1 (dfs_depth_bound root_localeCompare (build ["cat"; "act"])
                  [["C"; "A"]; ["T"; " "]]) 3%nat Hf).
Defined.

Lemma for_of_no_TypeError {A St} (body : St → A → result St) l :
  (∀ s a, body s a ≠ TypeError) → ∀ s, for_of body l s ≠ TypeError.
Proof.
  intros Hbody. induction l as [|a l IH]; intros s; simpl; [done|].
  specialize (Hbody s a). destruct (body s a); simpl; [apply IH|done..].
Qed.

Lemma dfs_no_TypeError lex g fuel : ∀ x y p w visited words,
  dfs lex g fuel x y p w visited words ≠ TypeError.
Proof.
  induction fuel as [|fuel IH]; intros x y p w visited words; [done|].
  cbn [dfs]. destruct (negb _); [done|].
  apply for_of_no_TypeError. intros s d.
  destruct (neighbour_total g visited x y d) as [m ->].
  destruct m; cbn [mbind result_bind]; [done|apply IH].
Qed.

Lemma search_no_TypeError lex g fuel : search lex g fuel ≠ TypeError.
Proof.
  rewrite search_starts. apply for_of_no_TypeError. intros s a.
  apply dfs_no_TypeError.
Qed.

(** C9.  Ragged rows: for every grid, whatever the lengths of its rows,
    [findWords] returns normally; no budget makes it raise a [TypeError];
    the skip test never reads outside the grid or outside a row (each
    indexing in [neighbour] succeeds); and a neighbour whose column index
    is at or beyond the length of its row is skipped. *)
Theorem findWords_ragged_total localeCompare lex g :
  (∃ r, findWords localeCompare lex g = Ok r) ∧
  (∀ fuel, findWords_fuel localeCompare fuel lex g ≠ TypeError) ∧
  (∀ visited x y d, ∃ m, neighbour g visited x y d = Ok m) ∧
  (∀ visited x y d row,
     0 ≤ x + d.1 → g !! Z.to_nat (x + d.1) = Some row →
     Z.of_nat (length row) ≤ y + d.2 →
     neighbour g visited x y d = Ok Skip).
Proof.
  split; [eexists; apply findWords_eq|]. split; [|split].
  - intros fuel. unfold findWords_fuel.
    pose proof (search_no_TypeError lex g fuel).
    by destruct (search lex g fuel).
  - intros. apply neighbour_total.
  - intros visited x y d row Hx Hrow Hy. rewrite neighbour_spec.
    unfold cell_at. simpl.
    destruct (Z.ltb_spec (x + d.1) 0); [lia|].
    destruct (Z.ltb_spec (y + d.2) 0); [done|]. simpl. rewrite Hrow. simpl.
    by rewrite (proj2 (lookup_ge_None row (Z.to_nat (y + d.2)))) by lia.
Qed.

Lemma findWords_ragged_total_witness :
  (0 ≤ 0 + 1) ∧
  [["A"; "B"; "C"]; ["D"]] !! Z.to_nat (0 + 1) = Some ["D"] ∧
  Z.of_nat (length ["D"]) ≤ 2 + 0 ∧
  neighbour [["A"; "B"; "C"]; ["D"]] {[(0, 2)]} 0 2 (1, 0) = Ok Skip.
Proof.
  assert (0 ≤ 0 + 1) as H1 by lia.
  assert ([["A"; "B"; "C"]; ["D"]] !! Z.to_nat (0 + 1) = Some ["D"]) as H2
    by reflexivity.
  assert (Z.of_nat (length ["D"]) ≤ 2 + 0) as H3 by (simpl; lia).
  split; [exact H1|]. split; [exact H2|]. split; [exact H3|].
  exact (proj2 (proj2 (proj2 (findWords_ragged_total root_localeCompare
                                (build ["a"]) [["A"; "B"; "C"]; ["D"]])))
           {[(0, 2)]} 0 2 (1, 0) ["D"] H1 H2 H3).
Defined.

(** C10.  Keys are the original-case strings: for a lexicon with the
    prefix-closure invariant, two simple paths that spell different strings
    with the same lower-case form, a dictionary word, give two entries of
    the result, one under each string; the keys of the result are pairwise
    different as exact strings, not as lower-cased ones. *)
Theorem mixed_case_entries localeCompare lex g p1 p2 w1 w2 :
  prefix_closed lex → simple_path g p1 → simple_path g p2 →
  letters g p1 = Some w1 → letters g p2 = Some w2 →
  toLowerCase w1 ∈ dictionary lex → toLowerCase w2 = toLowerCase w1 →
  w1 ≠ w2 →
  ∃ r q1 q2, findWords localeCompare lex g = Ok r ∧
             (w1, q1) ∈ r ∧ (w2, q2) ∈ r ∧ (w1, q1) ≠ (w2, q2) ∧
             NoDup r.*1.
Proof.
  intros Hlex Hp1 Hp2 Hw1 Hw2 Hdic Hlow Hne.
  assert (∀ w p, simple_path g p → letters g p = Some w →
                 toLowerCase w ∈ dictionary lex →
                 ∃ q, (w, q) ∈ sort (compareEntries localeCompare)
                                    (set_all (discoveries lex g) [])) as Hkey.
  { intros w p Hp Hw Hd.
    assert (w ∈ (sort (compareEntries localeCompare)
                      (set_all (discoveries lex g) [])).*1) as Hin.
    { apply sorted_keys. apply (list_elem_of_fmap_2 fst _ (w, p)).
      by apply discoveries_complete. }
    apply list_elem_of_fmap in Hin as ([k q] & -> & Hin). by exists q. }
  destruct (Hkey w1 p1) as [q1 Hq1]; [done..|].
  destruct (Hkey w2 p2) as [q2 Hq2]; [done| done | by rewrite Hlow |].
  eexists _, q1, q2. split; [apply findWords_eq|].
  split; [done|]. split; [done|]. split; [congruence|].
  apply sorted_keys_NoDup.
Qed.

Lemma mixed_case_entries_witness :
  prefix_closed (build ["cat"]) ∧
  simple_path [["C"; "A"; "T"]; ["c"; "a"; "t"]] [(0, 0); (0, 1); (0, 2)] ∧
  simple_path [["C"; "A"; "T"]; ["c"; "a"; "t"]] [(0, 0); (1, 1); (1, 2)] ∧
  letters [["C"; "A"; "T"]; ["c"; "a"; "t"]] [(0, 0); (0, 1); (0, 2)]
  = Some "CAT" ∧
  letters [["C"; "A"; "T"]; ["c"; "a"; "t"]] [(0, 0); (1, 1); (1, 2)]
  = Some "Cat" ∧
  (toLowerCase "CAT" ∈ dictionary (build ["cat"])) ∧
  toLowerCase "Cat" = toLowerCase "CAT" ∧
  "CAT" ≠ "Cat" ∧
  ∃ r q1 q2,
    findWords root_localeCompare (build ["cat"])
              [["C"; "A"; "T"]; ["c"; "a"; "t"]] = Ok r ∧
    ("CAT", q1) ∈ r ∧ ("Cat", q2) ∈ r ∧ ("CAT", q1) ≠ ("Cat", q2) ∧
    NoDup r.*1.
Proof.
  assert (prefix_closed (build ["cat"])) as Hlex by apply build_closed.
  assert (simple_path [["C"; "A"; "T"]; ["c"; "a"; "t"]]
            [(0, 0); (0, 1); (0, 2)]) as Hp1 by solve_simple_path.
  assert (simple_path [["C"; "A"; "T"]; ["c"; "a"; "t"]]
            [(0, 0); (1, 1); (1, 2)]) as Hp2 by solve_simple_path.
  assert (letters [["C"; "A"; "T"]; ["c"; "a"; "t"]] [(0, 0); (0, 1); (0, 2)]
          = Some "CAT") as Hw1 by reflexivity.
  assert (letters [["C"; "A"; "T"]; ["c"; "a"; "t"]] [(0, 0); (1, 1); (1, 2)]
          = Some "Cat") as Hw2 by reflexivity.
  assert (toLowerCase "CAT" ∈ dictionary (build ["cat"])) as Hdic
    by (apply (bool_decide_unpack _); by vm_compute).
  assert (toLowerCase "Cat" = toLowerCase "CAT") as Hlow by reflexivity.
  assert ("CAT" ≠ "Cat") as Hne by discriminate.
  repeat (split; [assumption|]).
  exact (mixed_case_entries root_localeCompare _ _ _ _ _ _
           Hlex Hp1 Hp2 Hw1 Hw2 Hdic Hlow Hne).
Defined.

(** * Further properties *)

(** ** Characters *)

Lemma all_ascii_complete c : c ∈ all_ascii.
Proof.
  rewrite <- (ascii_nat_embedding c). unfold all_ascii.
  apply list_elem_of_fmap_2, elem_of_seq.
  pose proof (nat_ascii_bounded c). lia.
Qed.

(** A property of characters that holds on the 256 of them holds of all. *)
Lemma forall_ascii (P : ascii → bool) :
  forallb P all_ascii = true → ∀ c, P c = true.
Proof.
  intros H c. rewrite forallb_forall in H. apply H.
  apply list_elem_of_In, all_ascii_complete.
Qed.

Lemma lower_char_idemp c : lower_char (lower_char c) = lower_char c.
Proof.
  apply Ascii.eqb_eq.
  apply (forall_ascii
           (fun c => Ascii.eqb (lower_char (lower_char c)) (lower_char c))).
  by vm_compute.
Qed.

Lemma lower_char_space c : is_space (lower_char c) = is_space c.
Proof.
  apply Bool.eqb_prop.
  apply (forall_ascii
           (fun c => Bool.eqb (is_space (lower_char c)) (is_space c))).
  by vm_compute.
Qed.

(** Lower-casing tells apart the characters that are not lower-case
    letters. *)
Lemma lower_char_inj c1 c2 :
  is_lower c1 = false → is_lower c2 = false →
  lower_char c1 = lower_char c2 → c1 = c2.
Proof.
  intros H1 H2 H.
  assert (forallb (fun c1 => forallb (fun c2 =>
            is_lower c1 || is_lower c2 ||
            negb (Ascii.eqb (lower_char c1) (lower_char c2)) ||
            Ascii.eqb c1 c2) all_ascii) all_ascii = true) as Hall
    by by vm_compute.
  pose proof (forall_ascii _ (forall_ascii _ Hall c1) c2) as Hc.
  simpl in Hc. rewrite H1, H2, (proj2 (Ascii.eqb_eq _ _) H) in Hc.
  by apply Ascii.eqb_eq.
Qed.

(** ** Strings, continued *)

Lemma truthy_ne s : truthy s = true ↔ s ≠ EmptyString.
Proof. by destruct s. Qed.

Lemma toLowerCase_idemp s : toLowerCase (toLowerCase s) = toLowerCase s.
Proof.
  induction s as [|c s IH]; simpl; [done|]. by rewrite lower_char_idemp, IH.
Qed.

Lemma app_inv_length a a' b b' :
  a +:+ b = a' +:+ b' → String.length a = String.length a' → a = a'.
Proof.
  revert a'. induction a as [|c a IH]; intros [|c' a'] H Hl; simpl in Hl;
    try done.
  rewrite !app_String in H. injection H as -> H. f_equal. apply IH; [done|lia].
Qed.

Lemma toLowerCase_fixed_prefix a b :
  toLowerCase (a +:+ b) = a +:+ b → toLowerCase a = a.
Proof.
  rewrite toLowerCase_app. intros H.
  apply (app_inv_length _ _ _ _ H), length_toLowerCase.
Qed.

Lemma trimStart_toLowerCase s :
  trimStart (toLowerCase s) = toLowerCase (trimStart s).
Proof.
  induction s as [|c s IH]; simpl; [done|]. rewrite lower_char_space.
  by destruct (is_space c).
Qed.

Lemma trimEnd_toLowerCase s :
  trimEnd (toLowerCase s) = toLowerCase (trimEnd s).
Proof.
  induction s as [|c s IH]; simpl; [done|]. rewrite IH, lower_char_space.
  destruct (trimEnd s); simpl; [by destruct (is_space c)|done].
Qed.

Lemma trimStart_idemp s : trimStart (trimStart s) = trimStart s.
Proof.
  induction s as [|c s IH]; simpl; [done|].
  destruct (is_space c) eqn:E; [done|]. simpl. by rewrite E.
Qed.

Lemma trimEnd_idemp s : trimEnd (trimEnd s) = trimEnd s.
Proof.
  induction s as [|c s IH]; simpl; [done|].
  destruct (trimEnd s) as [|d t] eqn:E.
  - destruct (is_space c) eqn:Ec; simpl; [done|]. by rewrite Ec.
  - change (trimEnd (String c (String d t))) with
      (match trimEnd (String d t) with
       | EmptyString => if is_space c then EmptyString else String c EmptyString
       | t' => String c t'
       end).
    by rewrite IH.
Qed.

Lemma trimEnd_head c s :
  is_space c = false → ∃ t, trimEnd (String c s) = String c t.
Proof.
  intros Hc. simpl. destruct (trimEnd s); [rewrite Hc|]; by eexists.
Qed.

Lemma trim_idemp s : trim (trim s) = trim s.
Proof.
  unfold trim.
  assert (trimStart (trimEnd (trimStart s)) = trimEnd (trimStart s)) as ->.
  { induction s as [|c s IH]; [done|]. cbn [trimStart].
    destruct (is_space c) eqn:Ec; [done|].
    destruct (trimEnd_head c s Ec) as [t Ht]. rewrite Ht.
    cbn [trimStart]. by rewrite Ec. }
  apply trimEnd_idemp.
Qed.

Lemma trim_toLowerCase s : trim (toLowerCase s) = toLowerCase (trim s).
Proof. unfold trim. by rewrite trimStart_toLowerCase, trimEnd_toLowerCase. Qed.

(** ** The dictionary, exactly *)

Lemma add_prefixes_spec word : ∀ prefix pd s,
  s ∈ add_prefixes prefix word pd ↔
  s ∈ pd ∨ ∃ a b, word = a +:+ b ∧ a ≠ EmptyString ∧ s = prefix +:+ a.
Proof.
  induction word as [|c word IH]; intros prefix pd s; simpl.
  - split; [by left|]. intros [?|(a & b & H & Ha & _)]; [done|].
    by destruct a.
  - rewrite IH, elem_of_union, elem_of_singleton. split.
    + intros [[->|?]|(a & b & -> & Ha & ->)].
      * right. by exists (String c EmptyString), word.
      * by left.
      * right. exists (String c a), b. by rewrite app_assoc_string.
    + intros [?|(a & b & H & Ha & ->)]; [by left; right|].
      destruct a as [|c' a]; [done|]. rewrite app_String in H.
      injection H as <- ->. destruct a as [|d a].
      * by left; left.
      * right. exists (String d a), b. by rewrite app_assoc_string.
Qed.

Lemma fold_add_line_dictionary lines : ∀ lex w,
  w ∈ dictionary (fold_left add_line lines lex) ↔
  w ∈ dictionary lex ∨
  (w ≠ EmptyString ∧ ∃ line, line ∈ lines ∧ w = toLowerCase (trim line)).
Proof.
  induction lines as [|l lines IH]; intros lex w; simpl.
  - split; [by left|]. intros [?|(_ & line & ?%elem_of_nil & _)]; done.
  - rewrite IH. unfold add_line.
    destruct (truthy (toLowerCase (trim l))) eqn:E; simpl.
    + rewrite elem_of_union, elem_of_singleton. split.
      * intros [[->|?]|(Hw & line & Hin & ->)].
        -- right. split; [by apply truthy_ne|]. exists l. split; [by left|done].
        -- by left.
        -- right. split; [done|]. exists line. split; [by right|done].
      * intros [?|(Hw & line & [->|Hin]%elem_of_cons & ->)].
        -- by left; right.
        -- by left; left.
        -- right. split; [done|]. by exists line.
    + split.
      * intros [?|(Hw & line & Hin & ->)]; [by left|].
        right. split; [done|]. exists line. split; [by right|done].
      * intros [?|(Hw & line & [->|Hin]%elem_of_cons & ->)]; [by left|..].
        -- apply truthy_ne in Hw. congruence.
        -- right. split; [done|]. by exists line.
Qed.

Lemma add_line_prefixes_exact lex line :
  prefixes_exact lex → prefixes_exact (add_line lex line).
Proof.
  intros Hlex s. unfold add_line.
  destruct (truthy (toLowerCase (trim line))) eqn:E; [|apply Hlex]. simpl.
  rewrite add_prefixes_spec, (Hlex s). split.
  - intros [(Hs & rest & Hin)|(a & b & Hw & Ha & ->)].
    + split; [done|]. exists rest. apply elem_of_union. by right.
    + rewrite app_empty_l. split; [done|]. exists b.
      apply elem_of_union. left. by apply elem_of_singleton.
  - intros (Hs & rest & [Hin%elem_of_singleton|Hin]%elem_of_union).
    + right. exists s, rest. by rewrite app_empty_l.
    + left. split; [done|]. by exists rest.
Qed.

Lemma build_prefixes_exact lines : prefixes_exact (build lines).
Proof.
  unfold build.
  assert (prefixes_exact (Lexicon ∅ ∅)) as H0.
  { intros s. simpl. split; [by intros ?%not_elem_of_empty|].
    by intros (_ & rest & ?%not_elem_of_empty). }
  revert H0. generalize (Lexicon ∅ ∅).
  induction lines as [|l lines IH]; intros lex Hlex; simpl; [done|].
  by apply IH, add_line_prefixes_exact.
Qed.

Lemma build_dictionary_iff lines w :
  w ∈ dictionary (build lines) ↔
  w ≠ EmptyString ∧ ∃ line, line ∈ lines ∧ w = toLowerCase (trim line).
Proof.
  unfold build. rewrite fold_add_line_dictionary. simpl.
  split; [intros [?%not_elem_of_empty|?]; done | by right].
Qed.

(** X1.  The dictionary built from a list of lines holds exactly the
    non-empty strings obtained from a line by trimming it and lower-casing
    it: every such line gives a word, and no other word is added. *)
Theorem build_dictionary_exact (lines : list string) (w : string) :
  w ∈ dictionary (build lines) ↔
  w ≠ EmptyString ∧ ∃ line, line ∈ lines ∧ w = toLowerCase (trim line).
Proof. apply build_dictionary_iff. Qed.

(** X2.  The prefix dictionary is exact: a string is in it exactly when it
    is not empty and some word of the dictionary begins with it.  The
    pruning test of the search therefore abandons a branch exactly when no
    dictionary word begins with the lower-cased letters read so far. *)
Theorem build_prefix_dictionary_exact (lines : list string) (s : string) :
  s ∈ prefixDictionary (build lines) ↔
  s ≠ EmptyString ∧ ∃ rest, s +:+ rest ∈ dictionary (build lines).
Proof. apply build_prefixes_exact. Qed.

(** X3.  The entries of both sets are normalised: a word of the dictionary
    is not empty, has no upper-case letter and no white space at either
    end; a string of the prefix dictionary is not empty and has no
    upper-case letter.  A lookup with another string fails. *)
Theorem build_normalised (lines : list string) :
  (∀ w, w ∈ dictionary (build lines) →
        w ≠ EmptyString ∧ toLowerCase w = w ∧ trim w = w) ∧
  (∀ s, s ∈ prefixDictionary (build lines) →
        s ≠ EmptyString ∧ toLowerCase s = s).
Proof.
  assert (∀ w, w ∈ dictionary (build lines) →
               w ≠ EmptyString ∧ toLowerCase w = w ∧ trim w = w) as Hw.
  { intros w (Hne & line & _ & ->)%build_dictionary_iff. split; [done|].
    by rewrite toLowerCase_idemp, trim_toLowerCase, trim_idemp. }
  split; [exact Hw|].
  intros s (Hne & rest & Hin)%build_prefixes_exact. split; [done|].
  destruct (Hw _ Hin) as (_ & Hlow & _). by eapply toLowerCase_fixed_prefix.
Qed.

Lemma build_normalised_witness :
  (" Dog" +:+ String "013" EmptyString) ∈ [" Dog" +:+ String "013" EmptyString] ∧
  "dog" ∈ dictionary (build [" Dog" +:+ String "013" EmptyString]) ∧
  "dog" ≠ EmptyString ∧ toLowerCase "dog" = "dog" ∧ trim "dog" = "dog".
Proof.
  assert ("dog" ∈ dictionary (build [" Dog" +:+ String "013" EmptyString]))
    as Hin by (apply (bool_decide_unpack _); by vm_compute).
  split; [by left|]. split; [exact Hin|].
  exact (proj1 (build_normalised [" Dog" +:+ String "013" EmptyString])
           "dog" Hin).
Defined.

(** ** The search, exactly *)

Section PassFacts.

Variable lex : lexicon.
Variable g : grid.

Lemma dfs_trace_passes fuel : ∀ x y p w visited e,
  node_ok g x y p w visited → passed_before lex g p →
  e ∈ dfs_trace lex g fuel x y p w visited → passes lex g e.2.
Proof.
  induction fuel as [|fuel IH]; intros x y p w visited e Hnode Hbefore;
    cbn [dfs_trace]; [by intros ?%elem_of_nil|].
  destruct (bool_decide (toLowerCase w ∈ prefixDictionary lex)) eqn:Hpre;
    cbn [negb]; [|by intros ?%elem_of_nil].
  apply bool_decide_eq_true in Hpre.
  assert (passes lex g p) as Hpass.
  { intros k w' Hk Hw'. destruct (decide (k = length p)) as [->|Hne].
    - rewrite firstn_all in Hw'. destruct Hnode as (_ & _ & Hw & _).
      rewrite Hw in Hw'. by injection Hw' as <-.
    - apply (Hbefore k); [lia|done]. }
  intros [Hin|Hin]%elem_of_app.
  - destruct (bool_decide (toLowerCase w ∈ dictionary lex));
      [|by apply elem_of_nil in Hin].
    by apply list_elem_of_singleton in Hin as ->.
  - apply list_elem_of_bind in Hin as (d & Hin & Hd).
    destruct (neighbour g visited x y d) as [[|nx ny cell]| |] eqn:Hm;
      try by apply elem_of_nil in Hin.
    eapply IH; [by eapply node_ok_visit| |exact Hin].
    intros k w' Hk Hw'. rewrite length_app in Hk. simpl in Hk.
    rewrite take_app_le in Hw' by lia. apply (Hpass k); [lia|done].
Qed.

Lemma discoveries_passes e : e ∈ discoveries lex g → passes lex g e.2.
Proof.
  unfold discoveries. intros (s & Hin & Hs)%list_elem_of_bind.
  eapply dfs_trace_passes; [by apply node_ok_start| |exact Hin].
  intros k w Hk. simpl in Hk. lia.
Qed.

Lemma discoveries_complete_passes p w :
  simple_path g p → letters g p = Some w → toLowerCase w ∈ dictionary lex →
  passes lex g p → (w, p) ∈ discoveries lex g.
Proof.
  intros Hsp Hw Hdic Hpass. destruct p as [|c ext]; [by destruct Hsp|].
  pose proof Hsp as (_ & _ & Hu & _). apply Forall_cons in Hu as [Hc _].
  destruct Hc as (cell & Hc & Ht).
  assert ((c, cell) ∈ starts g) as Hs by by apply starts_spec.
  unfold discoveries. apply list_elem_of_bind. exists (c, cell).
  split; [|done]. simpl.
  apply (dfs_trace_complete lex g ext _ _ _ [c]); try done.
  - pose proof (simple_path_length g _ Hsp). simpl in *. lia.
  - by apply (node_ok_start g (c, cell)).
  - intros ext1 ext2 w1 -> Hw1.
    apply (Hpass (S (length ext1))).
    + simpl. rewrite length_app. lia.
    + simpl. rewrite take_app_length. exact Hw1.
Qed.

End PassFacts.

Lemma insert_sorted_by_length localeCompare a l :
  StronglySorted (fun x y : string * path =>
                    (String.length x.1 ≤ String.length y.1)%nat) l →
  StronglySorted (fun x y : string * path =>
                    (String.length x.1 ≤ String.length y.1)%nat)
                 (insert_sorted (compareEntries localeCompare) a l).
Proof.
  induction 1 as [|b l Hs IH Hb]; simpl.
  - repeat constructor.
  - destruct (Z.leb_spec (compareEntries localeCompare a b) 0) as [Hab|Hab].
    + apply compareEntries_le in Hab.
      assert (String.length a.1 ≤ String.length b.1)%nat as Hlen
        by (destruct Hab as [?|[? _]]; lia).
      constructor; [by constructor|]. constructor; [done|].
      eapply Forall_impl; [exact Hb|]. simpl. intros c Hc. lia.
    + constructor; [done|]. rewrite insert_sorted_perm.
      constructor; [|done]. simpl.
      destruct (le_lt_dec (String.length b.1) (String.length a.1)) as [|Hlt];
        [done|].
      exfalso. assert (compareEntries localeCompare a b ≤ 0); [|lia].
      apply compareEntries_le. left. done.
Qed.

Lemma sort_by_length localeCompare l :
  StronglySorted (fun x y : string * path =>
                    (String.length x.1 ≤ String.length y.1)%nat)
                 (sort (compareEntries localeCompare) l).
Proof.
  induction l as [|a l IH]; simpl; [constructor|].
  by apply insert_sorted_by_length.
Qed.

Lemma cell_at_elem g c cell :
  cell_at g c = Some cell → ∃ row, row ∈ g ∧ cell ∈ row.
Proof.
  unfold cell_at. destruct (_ || _); [done|].
  destruct (g !! Z.to_nat c.1) as [row|] eqn:Hrow; [|done]. simpl.
  intros Hcell. exists row.
  split; [by eapply list_elem_of_lookup_2|by eapply list_elem_of_lookup_2].
Qed.

Lemma letters_length g p w :
  single_chars g → letters g p = Some w → String.length w = length p.
Proof.
  intros Hg. revert w. induction p as [|c p IH]; intros w; simpl.
  - by intros [= <-].
  - destruct (cell_at g c) as [cell|] eqn:Hc; [|done]. simpl.
    destruct (letters g p) as [rest|]; [|done]. simpl. intros [= <-].
    rewrite length_app_string, (IH rest) by done.
    destruct (cell_at_elem _ _ _ Hc) as (row & Hrow & Hcell).
    unfold single_chars in Hg. rewrite Forall_forall in Hg.
    specialize (Hg row Hrow). rewrite Forall_forall in Hg.
    by rewrite (Hg cell Hcell).
Qed.

Lemma sorted_elem_discovered localeCompare evs e :
  e ∈ sort (compareEntries localeCompare) (set_all evs []) → e ∈ evs.
Proof.
  destruct e as [w p]. rewrite sort_perm, set_all_entries.
  unfold last_discovery. intros H%map_get_elem_of_weak.
  by apply elem_of_reverse.
Qed.

(** X4.  The words returned, exactly, for every lexicon (prefix-closed or
    not): a string is a key of the result exactly when some simple
    8-adjacent path through usable cells spells it, its lower-case form is
    in the dictionary, and the lower-case form of the word read along every
    non-empty beginning of that path is in the prefix dictionary.  In
    particular [findWords] never returns a string that is not a dictionary
    word up to case. *)
Theorem findWords_keys_exact localeCompare lex g :
  ∃ r, findWords localeCompare lex g = Ok r ∧
       ∀ w, w ∈ r.*1 ↔
            ∃ p, simple_path g p ∧ letters g p = Some w ∧
                 toLowerCase w ∈ dictionary lex ∧ passes lex g p.
Proof.
  eexists. split; [apply findWords_eq|]. intros w. rewrite sorted_keys. split.
  - intros ([w' p] & -> & Hin)%list_elem_of_fmap. exists p.
    destruct (discoveries_sound lex g _ Hin) as (Hsp & Hw & Hdic & _).
    pose proof (discoveries_passes lex g _ Hin). done.
  - intros (p & Hsp & Hw & Hdic & Hpass).
    apply (list_elem_of_fmap_2 fst _ (w, p)).
    by apply discoveries_complete_passes.
Qed.

(** X5.  No word is returned twice: the keys of the result are pairwise
    different. *)
Theorem findWords_keys_unique localeCompare lex g :
  ∃ r, findWords localeCompare lex g = Ok r ∧ NoDup r.*1.
Proof. eexists. split; [apply findWords_eq|apply sorted_keys_NoDup]. Qed.

(** X6.  Whatever the host's [localeCompare] does (also when it is not a
    consistent comparison), the result is in ascending order of word
    length: the length difference decides before [localeCompare] is
    consulted. *)
Theorem findWords_sorted_by_length localeCompare lex g :
  ∃ r, findWords localeCompare lex g = Ok r ∧
       StronglySorted (fun a b : string * path =>
                         (String.length a.1 ≤ String.length b.1)%nat) r.
Proof. eexists. split; [apply findWords_eq|apply sort_by_length]. Qed.

(** X7.  With an empty prefix dictionary (the state of the two sets before
    the word list is loaded) [findWords] returns the empty sequence, for
    every grid and whatever the dictionary holds. *)
Theorem findWords_no_prefixes localeCompare (words : gset string) g :
  findWords localeCompare (Lexicon words ∅) g = Ok [].
Proof.
  rewrite findWords_eq.
  assert (discoveries (Lexicon words ∅) g = []) as ->; [|done].
  unfold discoveries. generalize (usable_cells g). intros fuel.
  induction (starts g) as [|s l IH]; [done|].
  rewrite bind_cons, IH, app_nil_r. by destruct fuel.
Qed.

(** X8.  On a grid whose cells are single characters every returned word
    is as long as its path: one letter per cell. *)
Theorem findWords_word_length localeCompare lex g :
  single_chars g →
  ∃ r, findWords localeCompare lex g = Ok r ∧
       ∀ w p, (w, p) ∈ r → String.length w = length p.
Proof.
  intros Hg. eexists. split; [apply findWords_eq|]. intros w p Hin.
  apply sorted_elem_discovered in Hin.
  destruct (discoveries_sound lex g _ Hin) as (_ & Hw & _).
  by eapply letters_length.
Qed.

Lemma findWords_word_length_witness :
  single_chars [["C"; "A"]; ["T"; "S"]] ∧
  ∃ r, findWords root_localeCompare (build ["cat"; "cats"; "at"; "as"])
                 [["C"; "A"]; ["T"; "S"]] = Ok r ∧
       ∀ w p, (w, p) ∈ r → String.length w = length p.
Proof.
  assert (single_chars [["C"; "A"]; ["T"; "S"]]) as Hg
    by (repeat constructor).
  split; [exact Hg|].
  exact (findWords_word_length root_localeCompare
           (build ["cat"; "cats"; "at"; "as"]) _ Hg).
Defined.

(** ** Reading the grid *)

Lemma split_lines_nonempty t : split_lines t ≠ [].
Proof.
  destruct t as [|c t]; simpl; [done|].
  destruct (Ascii.eqb c "010"); [done|]. by destruct (split_lines t).
Qed.

Lemma join_split_lines t : join_lines (split_lines t) = t.
Proof.
  induction t as [|c t IH]; simpl; [done|].
  pose proof (split_lines_nonempty t) as Hne.
  destruct (Ascii.eqb_spec c "010") as [->|Hc].
  - destruct (split_lines t) as [|l ls] eqn:E; [done|].
    change (join_lines (EmptyString :: l :: ls))
      with (EmptyString +:+ String "010" (join_lines (l :: ls))).
    by rewrite IH.
  - destruct (split_lines t) as [|l ls] eqn:E; [done|].
    destruct ls as [|l' ls]; simpl in *; [by rewrite IH|].
    by rewrite app_String, IH.
Qed.

Lemma row_text_split_chars row : row_text (split_chars row) = row.
Proof.
  induction row as [|c row IH]; simpl; [done|].
  by rewrite app_String, app_empty_l, IH.
Qed.

Lemma rows_text_split_chars (rows : list string) :
  row_text <$> (split_chars <$> rows) = rows.
Proof.
  induction rows as [|row rows IH]; [done|].
  rewrite !fmap_cons, row_text_split_chars. by f_equal.
Qed.

Lemma split_chars_single row :
  Forall (fun cell => String.length cell = 1%nat) (split_chars row).
Proof. induction row as [|c row IH]; simpl; by constructor. Qed.

Lemma chars_app a b :
  String.list_ascii_of_string (a +:+ b) =
  String.list_ascii_of_string a ++ String.list_ascii_of_string b.
Proof.
  induction a as [|c a IH]; [done|]. rewrite app_String. simpl. by rewrite IH.
Qed.

Lemma no_lower_app a b : no_lower (a +:+ b) ↔ no_lower a ∧ no_lower b.
Proof. unfold no_lower. rewrite chars_app. apply Forall_app. Qed.

Lemma split_lines_no_lower t :
  no_lower t → Forall no_lower (split_lines t).
Proof.
  induction t as [|c t IH]; simpl; intros Ht.
  - by repeat constructor.
  - apply Forall_cons in Ht as [Hc Ht]. specialize (IH Ht).
    destruct (Ascii.eqb c "010").
    + constructor; [constructor|done].
    + destruct (split_lines t) as [|l ls]; [by repeat constructor|].
      apply Forall_cons in IH as [Hl Hls].
      constructor; [by constructor|done].
Qed.

Lemma split_chars_no_lower row :
  no_lower row → Forall no_lower (split_chars row).
Proof.
  induction row as [|c row IH]; simpl; intros Hr; [constructor|].
  apply Forall_cons in Hr as [Hc Hr].
  constructor; [by repeat constructor|by apply IH].
Qed.

Lemma letters_no_lower g p w :
  Forall (Forall no_lower) g → letters g p = Some w → no_lower w.
Proof.
  intros Hg. revert w. induction p as [|c p IH]; intros w; simpl.
  - intros [= <-]. constructor.
  - destruct (cell_at g c) as [cell|] eqn:Hc; [|done]. simpl.
    destruct (letters g p) as [rest|]; [|done]. simpl. intros [= <-].
    apply no_lower_app. split; [|by apply IH].
    destruct (cell_at_elem _ _ _ Hc) as (row & Hrow & Hcell).
    rewrite Forall_forall in Hg. specialize (Hg row Hrow).
    rewrite Forall_forall in Hg. by apply Hg.
Qed.

Lemma toLowerCase_inj a b :
  no_lower a → no_lower b → toLowerCase a = toLowerCase b → a = b.
Proof.
  revert b. induction a as [|c a IH]; intros [|d b] Ha Hb H; simpl in H;
    try done.
  apply Forall_cons in Ha as [Hc Ha]. apply Forall_cons in Hb as [Hd Hb].
  injection H as Hcd H. f_equal; [by apply lower_char_inj|by apply IH].
Qed.

Lemma parseGrid_no_lower text :
  no_lower text → Forall (Forall no_lower) (parseGrid text).
Proof.
  intros Ht. unfold parseGrid. apply Forall_fmap.
  eapply Forall_impl; [by apply split_lines_no_lower|].
  intros row. apply split_chars_no_lower.
Qed.

Lemma parseGrid_single_chars text : single_chars (parseGrid text).
Proof.
  unfold parseGrid. apply Forall_fmap, Forall_true. intros row.
  apply split_chars_single.
Qed.

Lemma parseGrid_nonempty text : parseGrid text ≠ [].
Proof.
  unfold parseGrid. intros H%fmap_nil_inv. by apply split_lines_nonempty in H.
Qed.

(** X9.  [parseGrid] loses nothing of the upper-cased text it splits and
    always gives a grid: for every text there is at least one row (also for
    the empty text), every cell is a string of exactly one character, and
    the cells of the rows, joined by line feeds, are the text again. *)
Theorem parseGrid_shape (text : string) :
  parseGrid text ≠ [] ∧ single_chars (parseGrid text) ∧
  join_lines (row_text <$> parseGrid text) = text.
Proof.
  split; [apply parseGrid_nonempty|]. split; [apply parseGrid_single_chars|].
  unfold parseGrid. by rewrite rows_text_split_chars, join_split_lines.
Qed.

Lemma entries_same_key (m : word_map) e1 e2 :
  NoDup m.*1 → e1 ∈ m → e2 ∈ m → e1.1 = e2.1 → e1 = e2.
Proof.
  destruct e1 as [k v1], e2 as [k' v2]. simpl. intros Hnd H1 H2 <-.
  apply (map_get_elem_of _ _ _ Hnd) in H1, H2. congruence.
Qed.

(** X10.  On a grid without lower-case letters no dictionary word is
    listed twice: when no cell of the grid holds a lower-case letter (the
    cells being strings of code units below 256, as everywhere here), two
    entries of the result whose words agree up to case are one and the same
    entry.  The grid that [parseGrid] makes of a text without lower-case
    letters is such a grid. *)
Theorem upper_case_grid_one_entry_per_word localeCompare lex g :
  Forall (Forall no_lower) g →
  ∃ r, findWords localeCompare lex g = Ok r ∧
       ∀ e1 e2, e1 ∈ r → e2 ∈ r →
                toLowerCase e1.1 = toLowerCase e2.1 → e1 = e2.
Proof.
  intros Hg. eexists. split; [apply findWords_eq|]. intros e1 e2 H1 H2 Hlow.
  assert (∀ e, e ∈ sort (compareEntries localeCompare)
                        (set_all (discoveries lex g) []) → no_lower e.1)
    as Hno.
  { intros e He%sorted_elem_discovered.
    destruct (discoveries_sound lex g _ He) as (_ & Hw & _).
    by eapply letters_no_lower. }
  assert (e1.1 = e2.1) as Hkey by (apply toLowerCase_inj; auto).
  rewrite sort_perm in H1, H2.
  eapply entries_same_key; [|done..]. apply set_all_NoDup. constructor.
Qed.

Lemma upper_case_grid_one_entry_per_word_witness :
  no_lower "CAT" ∧
  Forall (Forall no_lower) (parseGrid "CAT") ∧
  ∃ r, findWords root_localeCompare (build ["cat"; "at"]) (parseGrid "CAT")
       = Ok r ∧
       ∀ e1 e2, e1 ∈ r → e2 ∈ r →
                toLowerCase e1.1 = toLowerCase e2.1 → e1 = e2.
Proof.
  assert (no_lower "CAT") as Ht by (repeat constructor).
  assert (Forall (Forall no_lower) (parseGrid "CAT")) as Hg
    by (by apply parseGrid_no_lower).
  split; [exact Ht|]. split; [exact Hg|].
  exact (upper_case_grid_one_entry_per_word root_localeCompare
           (build ["cat"; "at"]) _ Hg).
Defined.

(** ** Grouping the results *)

Lemma obj_set_Forall {V} (P : nat * V → Prop) k v o :
  P (k, v) → Forall P o → Forall P (obj_set k v o).
Proof.
  intros Hkv. induction 1 as [|[k' v'] o Hk' Ho IH]; simpl.
  - by constructor.
  - destruct (decide (k' < k)%nat); [by constructor|].
    destruct (decide (k' = k)); by repeat constructor.
Qed.

Lemma obj_set_sorted {V} k (v : V) o :
  StronglySorted (fun a b => (a.1 < b.1)%nat) o →
  StronglySorted (fun a b => (a.1 < b.1)%nat) (obj_set k v o).
Proof.
  induction 1 as [|[k' v'] o Hs IH Hk']; simpl.
  - repeat constructor.
  - destruct (decide (k' < k)%nat).
    + constructor; [done|]. by apply obj_set_Forall.
    + destruct (decide (k' = k)) as [->|Hne].
      * by constructor.
      * constructor; [by constructor|]. constructor; [simpl; lia|].
        eapply Forall_impl; [exact Hk'|]. simpl. intros; lia.
Qed.

Lemma obj_get_elem {V} k (v : V) o : obj_get k o = Some v → (k, v) ∈ o.
Proof.
  induction o as [|[k' v'] o IH]; simpl; [done|].
  destruct (decide (k' = k)) as [->|]; [intros [= ->]; by left|].
  intros H. right. by apply IH.
Qed.

Lemma obj_get_above {V} k (o : list (nat * V)) :
  Forall (fun b => (k < b.1)%nat) o → obj_get k o = None.
Proof.
  induction 1 as [|[k' v'] o Hk' Ho IH]; simpl; [done|].
  simpl in Hk'. by rewrite decide_False by lia.
Qed.

Lemma group_step_ok o e : groups_ok o → groups_ok (group_step o e).
Proof.
  intros [Hs Hg]. split; [by apply obj_set_sorted|].
  apply obj_set_Forall; [|done]. simpl. split; [by destruct (default _ _)|].
  apply Forall_app. split; [|by repeat constructor].
  destruct (obj_get _ o) as [ws|] eqn:E; simpl; [|constructor].
  apply obj_get_elem in E. rewrite Forall_forall in Hg.
  by destruct (Hg _ E) as [_ ?].
Qed.

Lemma groups_groups_ok results : groups_ok (groups results).
Proof.
  unfold groups. assert (groups_ok []) as H0 by (split; constructor).
  revert H0. generalize (@nil (nat * list (string * path))).
  induction results as [|e l IH]; intros o Ho; simpl; [done|].
  by apply IH, group_step_ok.
Qed.

Lemma obj_push_perm {V} n (e : V) (o : list (nat * list V)) :
  StronglySorted (fun a b => (a.1 < b.1)%nat) o →
  concat (obj_set n (default [] (obj_get n o) ++ [e]) o).*2
  ≡ₚ concat o.*2 ++ [e].
Proof.
  induction 1 as [|[k' v'] o Hs IH Hk']; [done|]. cbn [obj_get obj_set].
  destruct (decide (k' < n)%nat) as [Hlt|Hge].
  - rewrite decide_False by lia. csimpl. by rewrite IH, (assoc (++)).
  - destruct (decide (k' = n)) as [->|Hne]; csimpl.
    + rewrite <- !(assoc (++)). f_equiv. apply Permutation_app_comm.
    + rewrite obj_get_above
        by (eapply Forall_impl; [exact Hk'|]; simpl; intros; lia).
      csimpl. by rewrite Permutation_cons_append.
Qed.

Lemma obj_push_concat {V} n (e : V) (o : list (nat * list V)) :
  StronglySorted (fun a b => (a.1 < b.1)%nat) o →
  Forall (fun kv => (kv.1 ≤ n)%nat) o →
  concat (obj_set n (default [] (obj_get n o) ++ [e]) o).*2
  = concat o.*2 ++ [e].
Proof.
  induction 1 as [|[k' v'] o Hs IH Hk']; intros Hle; [done|].
  cbn [obj_get obj_set].
  apply Forall_cons in Hle as [Hk Hle]. simpl in Hk.
  destruct (decide (k' < n)%nat) as [Hlt|Hge].
  - rewrite decide_False by lia. csimpl. by rewrite IH, (assoc (++)).
  - assert (k' = n) as -> by lia. rewrite !decide_True by done. csimpl.
    destruct o as [|[k'' v''] o]; [by rewrite !app_nil_r|].
    apply Forall_cons in Hk' as [Hk'' _]. apply Forall_cons in Hle as [Hle _].
    simpl in *. lia.
Qed.

Lemma group_step_perm o e :
  StronglySorted (fun a b => (a.1 < b.1)%nat) o →
  concat (group_step o e).*2 ≡ₚ concat o.*2 ++ [e].
Proof. apply obj_push_perm. Qed.

Lemma group_step_concat o e :
  StronglySorted (fun a b => (a.1 < b.1)%nat) o →
  Forall (fun kv => (kv.1 ≤ String.length e.1)%nat) o →
  concat (group_step o e).*2 = concat o.*2 ++ [e].
Proof. apply obj_push_concat. Qed.

Lemma elem_of_concat {A} (x : A) ws (ls : list (list A)) :
  x ∈ ws → ws ∈ ls → x ∈ concat ls.
Proof.
  intros Hx. induction ls as [|ws' ls IH]; [by intros ?%elem_of_nil|].
  intros [->|Hin]%elem_of_cons; simpl; apply elem_of_app; [by left|].
  right. by apply IH.
Qed.

Lemma groups_snoc l e : groups (l ++ [e]) = group_step (groups l) e.
Proof. unfold groups. by rewrite fold_left_app. Qed.

Lemma groups_perm l : concat (groups l).*2 ≡ₚ l.
Proof.
  induction l as [|e l IH] using rev_ind; [done|].
  rewrite groups_snoc, group_step_perm by apply groups_groups_ok.
  by rewrite IH.
Qed.

Lemma groups_concat l :
  StronglySorted (fun a b : string * path =>
                    (String.length a.1 ≤ String.length b.1)%nat) l →
  concat (groups l).*2 = l.
Proof.
  induction l as [|e l IH] using rev_ind; intros Hs; [done|].
  rewrite groups_snoc.
  destruct (groups_groups_ok l) as [Hsorted Hok].
  rewrite group_step_concat, IH; [done|by eapply StronglySorted_app_1_l|done|].
  apply Forall_forall. intros [k ws] Hin.
  rewrite Forall_forall in Hok. destruct (Hok _ Hin) as [Hne Hlen]. simpl in *.
  destruct ws as [|e' ws]; [done|].
  apply Forall_cons in Hlen as [<- _].
  apply (StronglySorted_app_1_elem_of _ _ _ e' e Hs); [|by left].
  rewrite <- (groups_perm l). apply (elem_of_concat _ (e' :: ws)); [by left|].
  by apply (list_elem_of_fmap_2 snd _ (String.length e'.1, e' :: ws)).
Qed.

(** X11.  The groups that [displayResults] builds, for every sequence of
    results: their keys ascend strictly, no group is empty, every word of a
    group has the length that is the key of the group, and the groups
    together hold the results, each as often as it was given. *)
Theorem groups_partition (results : list (string * path)) :
  groups_ok (groups results) ∧ concat (groups results).*2 ≡ₚ results.
Proof. split; [apply groups_groups_ok|apply groups_perm]. Qed.

(** X12.  [displayResults] after [findWords]: read group after group, the
    grouped display lists exactly the returned sequence, every entry once
    and in the order in which [findWords] returned it. *)
Theorem groups_of_findWords localeCompare lex g :
  ∃ r, findWords localeCompare lex g = Ok r ∧ concat (groups r).*2 = r.
Proof.
  eexists. split; [apply findWords_eq|]. apply groups_concat, sort_by_length.
Qed.

(** ** Drawing the grid *)

Lemma render_row_cells (i : nat) row : ∀ j cells,
  forEach_from j
    (fun cells char j =>
       if negb (truthy (trim char)) then Ok cells
       else Ok (cells ++ [GridCell char (Z.of_nat i) (Z.of_nat j)]))
    row cells =
  Ok (cells ++ (cell_element <$> row_cells i j row)).
Proof.
  induction row as [|char row IH]; intros j cells; simpl.
  - by rewrite app_nil_r.
  - destruct (truthy (trim char)); simpl; rewrite IH.
    + by rewrite <- (assoc (++)).
    + done.
Qed.

Lemma render_grid_cells rows : ∀ i cells,
  forEach_from i
    (fun cells row i =>
       forEach (fun cells char j =>
                  if negb (truthy (trim char)) then Ok cells
                  else Ok (cells ++ [GridCell char (Z.of_nat i) (Z.of_nat j)]))
               row cells)
    rows cells =
  Ok (cells ++ (cell_element <$> grid_cells i rows)).
Proof.
  unfold forEach.
  induction rows as [|row rows IH]; intros i cells; simpl.
  - by rewrite app_nil_r.
  - rewrite (render_row_cells i row 0%nat cells). simpl. rewrite IH.
    by rewrite fmap_app, (assoc (++)).
Qed.

Lemma renderGrid_eq row g :
  renderGrid (row :: g) =
  Ok (Nat.max (length (row :: g)) (length row),
      cell_element <$> starts (row :: g)).
Proof.
  pose proof (render_grid_cells (row :: g) 0%nat []) as H.
  unfold renderGrid, gridSize, index, forEach in *. simpl lookup.
  cbn [mbind result_bind]. by rewrite H.
Qed.

Lemma cell_element_elem g cell :
  cell ∈ cell_element <$> starts g ↔
  cell_at g (dataset_x cell, dataset_y cell) = Some (textContent cell) ∧
  truthy (trim (textContent cell)) = true.
Proof.
  rewrite list_elem_of_fmap. split.
  - intros ([[x y] ch] & -> & Hs). by apply starts_spec in Hs.
  - intros H%starts_spec. destruct cell as [ch x y].
    by exists ((x, y), ch).
Qed.

(** X13.  [renderGrid] fails with a [TypeError] (reading [grid[0].length])
    exactly on the grid without rows; on every other grid it returns, the
    size it divides by is at least 1, and the cells it creates are exactly
    the usable cells of the grid, each with its letter and its coordinates:
    a blank cell is never drawn. *)
Theorem renderGrid_cells (g : grid) :
  (renderGrid g = TypeError ↔ g = []) ∧
  (g ≠ [] →
   ∃ size cells, renderGrid g = Ok (size, cells) ∧ (1 ≤ size)%nat ∧
     ∀ cell, cell ∈ cells ↔
             cell_at g (dataset_x cell, dataset_y cell)
             = Some (textContent cell) ∧
             truthy (trim (textContent cell)) = true).
Proof.
  destruct g as [|row g].
  - split; [done|]. by intros [].
  - rewrite renderGrid_eq. split; [done|]. intros _.
    eexists _, _. split; [done|]. split; [simpl; lia|].
    apply cell_element_elem.
Qed.

Lemma renderGrid_cells_witness :
  [["C"; " "]; ["T"]] ≠ [] ∧
  ∃ size cells, renderGrid [["C"; " "]; ["T"]] = Ok (size, cells) ∧
    (1 ≤ size)%nat ∧
    ∀ cell, cell ∈ cells ↔
            cell_at [["C"; " "]; ["T"]] (dataset_x cell, dataset_y cell)
            = Some (textContent cell) ∧
            truthy (trim (textContent cell)) = true.
Proof.
  assert ([["C"; " "]; ["T"]] ≠ []) as H by done.
  split; [exact H|].
  exact (proj2 (renderGrid_cells [["C"; " "]; ["T"]]) H).
Defined.

(** X14.  Hovering a found word: on the cells that [renderGrid] created for
    a grid, [drawPath] finds the start cell of every path that [findWords]
    returned for that grid (so that reading its style does not fail), and
    that cell carries the first coordinate of the path and the letter of
    the grid there. *)
Theorem drawPath_start_found localeCompare lex g size cells :
  renderGrid g = Ok (size, cells) →
  ∃ r, findWords localeCompare lex g = Ok r ∧
       ∀ w p, (w, p) ∈ r →
         ∃ startCell, drawPath_start cells p = Ok startCell ∧
           head p = Some (dataset_x startCell, dataset_y startCell) ∧
           cell_at g (dataset_x startCell, dataset_y startCell)
           = Some (textContent startCell).
Proof.
  intros Hr. destruct g as [|row g]; [done|].
  rewrite renderGrid_eq in Hr. injection Hr as _ <-.
  eexists. split; [apply findWords_eq|]. intros w p Hin.
  apply sorted_elem_discovered in Hin.
  destruct (discoveries_sound lex _ _ Hin) as ((Hne & _ & Hu & _) & _).
  simpl in *. destruct p as [|[x y] p]; [done|].
  apply Forall_cons in Hu as [(ch & Hc & Ht) _].
  unfold drawPath_start.
  change (index ((x, y) :: p) 0) with (@Ok coord (x, y)).
  cbn [mbind result_bind].
  destruct (list_find_elem_of
              (fun c => dataset_x c = (x, y).1 ∧ dataset_y c = (x, y).2)
              (cell_element <$> starts (row :: g)) (GridCell ch x y))
    as [[i cell] Hfind].
  { apply cell_element_elem. by simpl. }
  { done. }
  rewrite Hfind. exists cell. split; [done|].
  apply list_find_Some in Hfind as (Hi & [Hx Hy] & _). simpl in Hx, Hy.
  split; [by rewrite Hx, Hy|].
  apply list_elem_of_lookup_2, cell_element_elem in Hi. by destruct Hi.
Qed.

Lemma drawPath_start_found_witness :
  renderGrid [["C"; "A"]; ["T"; "S"]]
  = Ok (2%nat, [GridCell "C" 0 0; GridCell "A" 0 1;
                GridCell "T" 1 0; GridCell "S" 1 1]) ∧
  ∃ r, findWords root_localeCompare (build ["cat"]) [["C"; "A"]; ["T"; "S"]]
       = Ok r ∧
       ∀ w p, (w, p) ∈ r →
         ∃ startCell,
           drawPath_start [GridCell "C" 0 0; GridCell "A" 0 1;
                           GridCell "T" 1 0; GridCell "S" 1 1] p
           = Ok startCell ∧
           head p = Some (dataset_x startCell, dataset_y startCell) ∧
           cell_at [["C"; "A"]; ["T"; "S"]]
                   (dataset_x startCell, dataset_y startCell)
           = Some (textContent startCell).
Proof.
  assert (renderGrid [["C"; "A"]; ["T"; "S"]]
          = Ok (2%nat, [GridCell "C" 0 0; GridCell "A" 0 1;
                        GridCell "T" 1 0; GridCell "S" 1 1])) as H
    by reflexivity.
  split; [exact H|].
  exact (drawPath_start_found root_localeCompare (build ["cat"]) _ _ _ H).
Defined.

(** ** What the search sees of the grid and of the lexicon *)

Lemma usable_at_starts g c ch : usable_at g c = Some ch ↔ (c, ch) ∈ starts g.
Proof.
  rewrite starts_spec. unfold usable_at.
  destruct (cell_at g c) as [cell|]; [|split; [done|by intros [? _]]].
  destruct (truthy (trim cell)) eqn:E.
  - split; [by intros [= ->]|by intros [[= ->] _]].
  - split; [done|]. intros [[= ->] ?]. congruence.
Qed.

Lemma usable_at_ext g g' c : starts g = starts g' → usable_at g c = usable_at g' c.
Proof.
  intros Hs. destruct (usable_at g c) as [ch|] eqn:E.
  - apply usable_at_starts in E. rewrite Hs in E.
    by apply usable_at_starts in E.
  - destruct (usable_at g' c) as [ch|] eqn:E'; [|done].
    apply usable_at_starts in E'. rewrite <- Hs in E'.
    apply usable_at_starts in E'. congruence.
Qed.

Lemma neighbour_usable_at g visited x y d :
  neighbour g visited x y d =
  Ok (match usable_at g (x + d.1, y + d.2) with
      | Some cell =>
          if bool_decide ((x + d.1, y + d.2) ∈ visited) then Skip
          else Visit (x + d.1) (y + d.2) cell
      | None => Skip
      end).
Proof.
  rewrite neighbour_spec. unfold usable_at.
  destruct (cell_at g _) as [cell|]; [|done].
  destruct (truthy (trim cell)); [|done]. simpl.
  by destruct (bool_decide _).
Qed.

Lemma neighbour_ext g g' visited x y d :
  starts g = starts g' →
  neighbour g visited x y d = neighbour g' visited x y d.
Proof.
  intros Hs. by rewrite !neighbour_usable_at, (usable_at_ext g g' _ Hs).
Qed.

Lemma dfs_trace_ext lex g g' fuel : ∀ x y p w visited,
  starts g = starts g' →
  dfs_trace lex g fuel x y p w visited = dfs_trace lex g' fuel x y p w visited.
Proof.
  induction fuel as [|fuel IH]; intros x y p w visited Hs; [done|].
  cbn [dfs_trace]. destruct (negb _); [done|]. f_equal.
  apply list_bind_ext; [|done]. intros d.
  rewrite (neighbour_ext g g' _ _ _ _ Hs).
  destruct (neighbour g' visited x y d) as [[|nx ny cell]| |]; try done.
  by apply IH.
Qed.

Lemma discoveries_ext lex g g' :
  starts g = starts g' → discoveries lex g = discoveries lex g'.
Proof.
  intros Hs. unfold discoveries, usable_cells. rewrite Hs.
  apply list_bind_ext; [|done]. intros s. by apply dfs_trace_ext.
Qed.

(** X15.  A blank cell is as good as absent: the result of [findWords]
    depends on the grid only through its non-blank cells and their
    coordinates.  Two grids with the same non-blank cells at the same
    places (they may differ in blank cells, in blank padding of the rows
    and in empty rows at the end) give the same result. *)
Theorem findWords_blank_cells_absent localeCompare lex g g' :
  starts g = starts g' →
  findWords localeCompare lex g = findWords localeCompare lex g'.
Proof.
  intros Hs. by rewrite !findWords_eq, (discoveries_ext lex g g' Hs).
Qed.

Lemma findWords_blank_cells_absent_witness :
  starts [["C"; "A"; "T"]] = starts [["C"; "A"; "T"; " "]; [" "]; []] ∧
  findWords root_localeCompare (build ["cat"]) [["C"; "A"; "T"]] =
  findWords root_localeCompare (build ["cat"])
            [["C"; "A"; "T"; " "]; [" "]; []].
Proof.
  assert (starts [["C"; "A"; "T"]]
          = starts [["C"; "A"; "T"; " "]; [" "]; []]) as H by reflexivity.
  split; [exact H|].
  exact (findWords_blank_cells_absent root_localeCompare (build ["cat"])
           _ _ H).
Defined.

(** X16.  A larger lexicon loses no word: when the dictionary and the
    prefix dictionary of one lexicon are included in those of another,
    every word returned with the first is returned with the second. *)
Theorem findWords_monotone localeCompare lex lex' g :
  dictionary lex ⊆ dictionary lex' →
  prefixDictionary lex ⊆ prefixDictionary lex' →
  ∃ r r', findWords localeCompare lex g = Ok r ∧
          findWords localeCompare lex' g = Ok r' ∧
          ∀ w, w ∈ r.*1 → w ∈ r'.*1.
Proof.
  intros Hd Hp. eexists _, _. split; [apply findWords_eq|].
  split; [apply findWords_eq|]. intros w. rewrite !sorted_keys.
  intros ([w' p] & -> & Hin)%list_elem_of_fmap.
  destruct (discoveries_sound lex g _ Hin) as (Hsp & Hw & Hdic & _).
  pose proof (discoveries_passes lex g _ Hin) as Hpass. simpl in *.
  apply (list_elem_of_fmap_2 fst _ (w', p)).
  apply discoveries_complete_passes; [done|done|by apply Hd|].
  intros k wk Hk Hwk. apply Hp. by apply (Hpass k).
Qed.

Lemma findWords_monotone_witness :
  dictionary (build ["cat"]) ⊆ dictionary (build ["cat"; "at"]) ∧
  prefixDictionary (build ["cat"]) ⊆ prefixDictionary (build ["cat"; "at"]) ∧
  ∃ r r', findWords root_localeCompare (build ["cat"]) [["C"; "A"; "T"]]
          = Ok r ∧
          findWords root_localeCompare (build ["cat"; "at"]) [["C"; "A"; "T"]]
          = Ok r' ∧
          ∀ w, w ∈ r.*1 → w ∈ r'.*1.
Proof.
  assert (dictionary (build ["cat"]) ⊆ dictionary (build ["cat"; "at"]))
    as Hd by (apply (bool_decide_unpack _); by vm_compute).
  assert (prefixDictionary (build ["cat"])
          ⊆ prefixDictionary (build ["cat"; "at"]))
    as Hp by (apply (bool_decide_unpack _); by vm_compute).
  split; [exact Hd|]. split; [exact Hp|].
  exact (findWords_monotone root_localeCompare _ _ [["C"; "A"; "T"]] Hd Hp).
Defined.

(** ** The button *)

(** X17.  Pressing the button on a page that is not solved, with the
    dictionary loaded: whatever the text of the input field and whatever
    the host's [toUpperCase] makes of it, neither [renderGrid] nor
    [findWords] fails; the page becomes solved, shows the usable cells of
    the parsed grid and, group after group, exactly the sequence that
    [findWords] returns for it.  Pressing the button again clears the
    input, the grid and the solutions and leaves the page not solved. *)
Theorem solve_then_reset localeCompare toUpperCase lex pg :
  solved pg = false →
  ∃ pg' r,
    solve localeCompare toUpperCase true lex pg = Ok pg' ∧
    findWords localeCompare lex (parseGrid (toUpperCase (gridInput pg)))
    = Ok r ∧
    solved pg' = true ∧
    visualGrid pg'
    = cell_element <$> starts (parseGrid (toUpperCase (gridInput pg))) ∧
    concat (solutions pg').*2 = r ∧
    ∀ loaded, solve localeCompare toUpperCase loaded lex pg'
              = Ok (Page false EmptyString [] [] "Solve" (alerts pg)).
Proof.
  intros Hs. unfold solve. rewrite Hs. simpl.
  pose proof (parseGrid_nonempty (toUpperCase (gridInput pg))) as Hne.
  destruct (parseGrid (toUpperCase (gridInput pg))) as [|row g]; [done|].
  rewrite renderGrid_eq, findWords_eq. cbn [mbind result_bind].
  eexists _, _. split; [done|]. split; [done|]. split; [done|].
  split; [done|]. split; [|done]. simpl.
  apply groups_concat, sort_by_length.
Qed.

Lemma solve_then_reset_witness :
  solved (Page false "CA" [] [] "Solve" []) = false ∧
  ∃ pg' r,
    solve root_localeCompare id true (build ["a"])
          (Page false "CA" [] [] "Solve" []) = Ok pg' ∧
    findWords root_localeCompare (build ["a"])
              (parseGrid (id (gridInput (Page false "CA" [] [] "Solve" []))))
    = Ok r ∧
    solved pg' = true ∧
    visualGrid pg'
    = cell_element <$>
        starts (parseGrid (id (gridInput (Page false "CA" [] [] "Solve" [])))) ∧
    concat (solutions pg').*2 = r ∧
    ∀ loaded, solve root_localeCompare id loaded (build ["a"]) pg'
              = Ok (Page false EmptyString [] [] "Solve"
                         (alerts (Page false "CA" [] [] "Solve" []))).
Proof.
  assert (solved (Page false "CA" [] [] "Solve" []) = false) as Hs
    by reflexivity.
  split; [exact Hs|].
  exact (solve_then_reset root_localeCompare id (build ["a"])
           (Page false "CA" [] [] "Solve" []) Hs).
Defined.
